(** * Skunk Ape Adventures: the catalog browser of [app.js]

    A shallow embedding of the filter / sort / render pipeline of [app.js]
    and the properties of its specification.

    Conventions of the embedding:
    - a JavaScript string is the list of its UTF-16 code units ([jsstring]);
      [length], [includes], [substring] and [trim] work on code units, as in
      the language;
    - a JSON number is a rational ([Q]): every finite double is one, and the
      comparisons of [matchesPrice] and the subtraction of the sort
      comparator are exact on them;
    - [String.prototype.toLowerCase] (the Unicode case mapping) and the
      number-to-string conversion of template literals are parameters of the
      development; the closed examples instantiate them with an ASCII case
      mapping and a printer of integers;
    - a listing is a record of optional fields ([None] is [undefined]);
    - arrays live in a store and the two globals [allTours] and
      [filteredTours] hold references into it, so that copying and sorting in
      place are distinguishable;
    - a thrown [TypeError] is the second constructor of [result]. *)

From Stdlib Require Import String Ascii List ZArith NArith QArith Lia Lqa
  DecimalString.
From stdpp Require Import base decidable option list sorting gmap.
Import ListNotations.

(** ** Strings as sequences of code units *)

Abbreviation jsstring := (list N).

(** An ASCII literal as a JavaScript string. *)
Definition lit (s : string) : jsstring :=
  map N_of_ascii (list_ascii_of_string s).

(** A markup literal: the text of the source with a backquote written for
    each double quote (the templates of [app.js] contain no backquote). *)
Definition html (s : string) : jsstring :=
  map (fun c => if (c =? 96)%N then 34%N else c) (lit s).

(** ECMAScript [WhiteSpace] and [LineTerminator] code units: what [trim]
    strips and what [\s] matches. *)
Definition whiteSpace : list N :=
  [9; 10; 11; 12; 13; 32; 160; 5760;
   8192; 8193; 8194; 8195; 8196; 8197; 8198; 8199; 8200; 8201; 8202;
   8232; 8233; 8239; 8287; 12288; 65279]%N.

Definition isWhiteSpace (c : N) : bool := existsb (N.eqb c) whiteSpace.

Fixpoint startsWith (s prefix : jsstring) {struct prefix} : bool :=
  match prefix, s with
  | [], _ => true
  | _ :: _, [] => false
  | p :: prefix', c :: s' => (c =? p)%N && startsWith s' prefix'
  end.

(** [s.includes(search)]: some position of [s] starts with [search]. *)
Fixpoint includes (s search : jsstring) : bool :=
  startsWith s search ||
  match s with
  | [] => false
  | _ :: s' => includes s' search
  end.

Fixpoint trimStart (s : jsstring) : jsstring :=
  match s with
  | c :: s' => if isWhiteSpace c then trimStart s' else s
  | [] => []
  end.

Definition trimEnd (s : jsstring) : jsstring := rev (trimStart (rev s)).

(** [s.trim()] *)
Definition trim (s : jsstring) : jsstring := trimEnd (trimStart s).

(** [s.substring(0, n)] for a natural [n] *)
Definition substring0 (s : jsstring) (n : nat) : jsstring := take n s.

(** [s.replace(/c/g, by)] for a pattern of one literal code unit *)
Definition replaceAllUnit (c : N) (by_ : jsstring) (s : jsstring) : jsstring :=
  flat_map (fun x => if (x =? c)%N then by_ else [x]) s.

(** [a.join(sep)] on an array of strings *)
Fixpoint join (sep : jsstring) (a : list jsstring) : jsstring :=
  match a with
  | [] => []
  | [x] => x
  | x :: a' => x ++ sep ++ join sep a'
  end.

(** [a.join(sep)] on an array whose elements may be [undefined]: such an
    element contributes the empty string. *)
Definition Array_join (sep : jsstring) (a : list (option jsstring)) : jsstring :=
  join sep (map (default []) a).

(** A template substitution [${x}] of a string-valued field: [undefined]
    prints as the word. *)
Definition interpolate (x : option jsstring) : jsstring :=
  match x with
  | Some s => s
  | None => lit "undefined"
  end.

(** ** Numbers *)

(** [a < b] on numbers *)
Definition Qlt_bool (a b : Q) : bool := negb (Qle_bool b a).

(** ** Listings *)

Module Tour.
Record t := mk {
  id : option jsstring;
  name : option jsstring;
  company : option jsstring;
  description : option jsstring;
  tags : option (list jsstring);
  price : option Q;
  durationText : option jsstring;
  freeCancellation : option bool;
  image : option jsstring;
  bookingLink : option jsstring;
  qualityScore : option Q
}.

(** The listing with no field at all. *)
Definition blank : t :=
  mk None None None None None None None None None None None.

Definition with_name (n : jsstring) (x : t) : t :=
  mk (id x) (Some n) (company x) (description x) (tags x) (price x)
     (durationText x) (freeCancellation x) (image x) (bookingLink x)
     (qualityScore x).

Definition with_price (p : Q) (x : t) : t :=
  mk (id x) (name x) (company x) (description x) (tags x) (Some p)
     (durationText x) (freeCancellation x) (image x) (bookingLink x)
     (qualityScore x).
End Tour.

(** ** Results of code that may throw *)

Inductive result (A : Type) : Type :=
  | Ok (a : A)
  | TypeError.
Arguments Ok {A} a.
Arguments TypeError {A}.

#[global] Instance result_ret : MRet result := fun _ a => Ok a.

#[global] Instance result_bind : MBind result := fun _ _ k r =>
  match r with
  | Ok a => k a
  | TypeError => TypeError
  end.

(** ** Utilities of [app.js] that need no parameter *)

(** [truncate(str, length)] *)
Definition truncate (str : jsstring) (length_ : nat) : jsstring :=
  match str with
  | [] => []
  | _ =>
      if length str <=? length_ then str
      else trim (substring0 str length_) ++ lit "..."
  end.

(** One code unit against one letter of the pattern under the [i] flag: for
    an ASCII letter the canonical form of the flag identifies exactly its two
    cases. *)
Definition unitMatchesIgnoreCase (patternLower c : N) : bool :=
  (c =? patternLower)%N || (c =? patternLower - 32)%N.

(** The letters of a literal pattern at the head of [s], ignoring case:
    the rest of [s] after them. *)
Fixpoint matchLetters (patternLower s : jsstring) {struct patternLower}
  : option jsstring :=
  match patternLower, s with
  | [], _ => Some s
  | _ :: _, [] => None
  | p :: pattern', c :: s' =>
      if unitMatchesIgnoreCase p c then matchLetters pattern' s' else None
  end.

(** [/Duration\s*/i] at the head of [s]: the rest of [s] after the match
    (the star is greedy and the match never backtracks into it). *)
Definition matchDuration (s : jsstring) : option jsstring :=
  match matchLetters (lit "duration") s with
  | Some rest => Some (trimStart rest)
  | None => None
  end.

(** [s.replace(/Duration\s*/gi, '')]: scan from the left; at a match drop it
    and go on after it, else keep the code unit and go on at the next one.
    [fuel] bounds the number of steps. *)
Fixpoint removeDuration_steps (fuel : nat) (s : jsstring) : jsstring :=
  match fuel with
  | O => s
  | S fuel' =>
      match matchDuration s with
      | Some rest => removeDuration_steps fuel' rest
      | None =>
          match s with
          | [] => []
          | c :: s' => c :: removeDuration_steps fuel' s'
          end
      end
  end.

Definition removeDuration (s : jsstring) : jsstring :=
  removeDuration_steps (S (length s)) s.

(** [cleanDuration(duration)] *)
Definition cleanDuration (duration : jsstring) : jsstring :=
  trim (replaceAllUnit 10 (lit " ") (removeDuration duration)).

(** [escapeJs(str)] *)
Definition escapeJs (str : option jsstring) : jsstring :=
  replaceAllUnit 34 [92; 34]%N (replaceAllUnit 39 [92; 39]%N (default [] str)).

(** ** The price matcher *)

(** [matchesPrice(tour, range)]: [!price] holds of an absent price and of the
    number zero. *)
Definition matchesPrice (tour : Tour.t) (range : jsstring) : bool :=
  match Tour.price tour with
  | None => bool_decide (range = lit "")
  | Some price =>
      if Qeq_bool price 0 then bool_decide (range = lit "")
      else if bool_decide (range = lit "0-50") then Qle_bool price 50
      else if bool_decide (range = lit "50-100") then
        Qlt_bool 50 price && Qle_bool price 100
      else if bool_decide (range = lit "100-200") then
        Qlt_bool 100 price && Qle_bool price 200
      else if bool_decide (range = lit "200+") then Qlt_bool 200 price
      else true
  end.

(** ** The category table *)

Definition activityMap : gmap jsstring (list jsstring) :=
  list_to_map
    [ (lit "airboat", [lit "airboat"]);
      (lit "kayak", [lit "kayak"; lit "paddle"; lit "canoe"]);
      (lit "wildlife",
        [lit "wildlife"; lit "gator"; lit "alligator"; lit "animal"; lit "bird"]);
      (lit "fishing", [lit "fishing"; lit "fish"]);
      (lit "boat-tour", [lit "boat tour"; lit "boat ride"]);
      (lit "eco-tour", [lit "eco"; lit "nature"; lit "mangrove"]);
      (lit "night", [lit "night"; lit "sunset"; lit "evening"]);
      (lit "private", [lit "private"; lit "charter"]) ].

(** [activityMap] is an object literal: a property that is not its own is
    looked up on [Object.prototype], whose properties are functions (and,
    for [__proto__], an object): truthy values without a [some] method. *)
Definition Object_prototype_keys : list jsstring :=
  map lit
    [ "constructor"; "__defineGetter__"; "__defineSetter__"; "hasOwnProperty";
      "__lookupGetter__"; "__lookupSetter__"; "isPrototypeOf";
      "propertyIsEnumerable"; "toString"; "valueOf"; "__proto__";
      "toLocaleString" ]%string.

Inductive property : Type :=
  | OwnKeywords (keywords : list jsstring)
  | Inherited
  | Undefined.

(** [activityMap[key]] *)
Definition activityMap_get (key : jsstring) : property :=
  match activityMap !! key with
  | Some keywords => OwnKeywords keywords
  | None =>
      if bool_decide (key ∈ Object_prototype_keys) then Inherited else Undefined
  end.

(** ** The application state *)

(** The store of arrays, the two globals (references into the store), the
    values of the three filter controls and the two outputs of rendering. *)
Record state := mkState {
  store : gmap nat (list Tour.t);
  allTours : nat;
  filteredTours : nat;
  activityFilter_value : jsstring;
  priceFilter_value : jsstring;
  searchInput_value : jsstring;
  tourCount_textContent : jsstring;
  toursContainer_innerHTML : jsstring
}.

(** The array a reference points to. *)
Definition array (st : gmap nat (list Tour.t)) (r : nat) : list Tour.t :=
  default [] (st !! r).

(** A new array: a reference the store does not use yet. *)
Definition alloc (a : list Tour.t) (st : gmap nat (list Tour.t))
  : nat * gmap nat (list Tour.t) :=
  let r := fresh (dom st) in (r, <[r := a]> st).

(** Both globals refer to arrays of the store. *)
Definition wellFormed (s : state) : Prop :=
  is_Some (store s !! allTours s) /\ is_Some (store s !! filteredTours s).

(** [let allTours = []; let filteredTours = [];] on a page whose controls
    and outputs are empty. *)
Definition initialState : state :=
  mkState (<[1 := []]> (<[0 := []]> ∅)) 0 1 [] [] [] [] [].

Definition set_searchInput_value (v : jsstring) (s : state) : state :=
  mkState (store s) (allTours s) (filteredTours s) (activityFilter_value s)
    (priceFilter_value s) v (tourCount_textContent s)
    (toursContainer_innerHTML s).

Definition set_activityFilter_value (v : jsstring) (s : state) : state :=
  mkState (store s) (allTours s) (filteredTours s) v
    (priceFilter_value s) (searchInput_value s) (tourCount_textContent s)
    (toursContainer_innerHTML s).

Definition set_priceFilter_value (v : jsstring) (s : state) : state :=
  mkState (store s) (allTours s) (filteredTours s) (activityFilter_value s)
    v (searchInput_value s) (tourCount_textContent s)
    (toursContainer_innerHTML s).

(** A string in a condition: the empty string is falsy. *)
Definition truthy (s : jsstring) : bool :=
  match s with
  | [] => false
  | _ => true
  end.

(** [a.filter(callback)] where the callback may throw *)
Fixpoint Array_filter {A : Type} (callback : A -> result bool) (a : list A)
  : result (list A) :=
  match a with
  | [] => mret []
  | x :: a' =>
      keep ← callback x;
      rest ← Array_filter callback a';
      mret (if keep : bool then x :: rest else rest)
  end.

(** The comparator of [renderTours] and the stable sort of the language. *)
Definition score (tour : Tour.t) : Q := default 0%Q (Tour.qualityScore tour).

Definition compareTours (a b : Tour.t) : Q := (score b - score a)%Q.

Fixpoint insertTour (x : Tour.t) (sorted : list Tour.t) : list Tour.t :=
  match sorted with
  | [] => [x]
  | y :: sorted' =>
      if Qle_bool (compareTours x y) 0 then x :: sorted
      else y :: insertTour x sorted'
  end.

Definition Array_sort (a : list Tour.t) : list Tour.t :=
  foldr insertTour [] a.

(** ** Matchers, filter pipeline and renderer *)

Section Pipeline.
Variable toLowerCase : jsstring -> jsstring.
Variable numberToString : Q -> jsstring.

(** [matchesActivity(tour, activity)]; calling [some] on an inherited
    property value throws. *)
Definition matchesActivity (tour : Tour.t) (activity : jsstring) : result bool :=
  let tags := join (lit " ") (map toLowerCase (default [] (Tour.tags tour))) in
  let name := toLowerCase (default [] (Tour.name tour)) in
  keywords ← match activityMap_get activity with
             | OwnKeywords keywords => Ok keywords
             | Undefined => Ok [activity]
             | Inherited => TypeError
             end;
  mret (existsb (fun kw => includes tags kw || includes name kw) keywords).

(** [matchesSearch(tour, search)] *)
Definition matchesSearch (tour : Tour.t) (search : jsstring) : bool :=
  let searchable :=
    toLowerCase
      (Array_join (lit " ")
         ([Tour.name tour; Tour.company tour; Tour.description tour]
          ++ map Some (default [] (Tour.tags tour)))) in
  includes searchable search.

(** The callback of [allTours.filter] in [applyFilters]. *)
Definition keepTour (activity priceRange search : jsstring) (tour : Tour.t)
  : result bool :=
  failsActivity ←
    (if truthy activity
     then matched ← matchesActivity tour activity; mret (negb matched)
     else mret false);
  if failsActivity : bool then mret false
  else if truthy priceRange && negb (matchesPrice tour priceRange) then mret false
  else if truthy search && negb (matchesSearch tour search) then mret false
  else mret true.

(** [createTourCard(tour)] *)
Definition createTourCard (tour : Tour.t) : jsstring :=
  let price :=
    match Tour.price tour with
    | Some p => if Qeq_bool p 0 then lit "Check Price"
                else lit "$" ++ numberToString p
    | None => lit "Check Price"
    end in
  let tag :=
    match Tour.tags tour with
    | Some (first :: _) => if truthy first then first else lit "Tour"
    | _ => lit "Tour"
    end in
  let duration := default [] (Tour.durationText tour) in
  let description :=
    match Tour.description tour with
    | Some d =>
        if truthy d then d
        else lit "Experience the Everglades with this local tour operator."
    | None => lit "Experience the Everglades with this local tour operator."
    end in
  let priceOrZero :=
    match Tour.price tour with
    | Some p => if Qeq_bool p 0 then 0%Q else p
    | None => 0%Q
    end in
  html "
    <article class=`tour-card`>
      <div class=`tour-image`>
        <img src=`" ++ interpolate (Tour.image tour)
  ++ html "` alt=`" ++ interpolate (Tour.name tour)
  ++ html "` loading=`lazy`>
        <span class=`tour-price`>" ++ price ++ html "</span>
        <span class=`tour-tag`>" ++ tag ++ html "</span>
      </div>
      <div class=`tour-content`>
        <h3 class=`tour-name`>" ++ interpolate (Tour.name tour) ++ html "</h3>
        <p class=`tour-company`>" ++ interpolate (Tour.company tour) ++ html "</p>
        <p class=`tour-description`>" ++ truncate description 100 ++ html "</p>
        <div class=`tour-meta`>
          "
  ++ (if truthy duration
      then html "<span>" ++ [9201%N] ++ lit " " ++ cleanDuration duration
           ++ html "</span>"
      else [])
  ++ html "
          "
  ++ (match Tour.freeCancellation tour with
      | Some true => html "<span>" ++ [10003%N] ++ lit " Free cancellation</span>"
      | _ => []
      end)
  ++ html "
        </div>
        <a href=`" ++ interpolate (Tour.bookingLink tour) ++ html "`" ++ lit " " ++ html "
           target=`_blank`" ++ lit " " ++ html "
           rel=`noopener`" ++ lit " " ++ html "
           class=`tour-cta`
           onclick=`trackBookingClick('" ++ escapeJs (Tour.name tour)
  ++ lit "', '" ++ interpolate (Tour.id tour)
  ++ lit "', " ++ numberToString priceOrZero ++ html ")`>
          Check Availability
        </a>
      </div>
    </article>
  ".

Definition noResults : jsstring :=
  html "
      <div class=`no-results`>
        <h3>No tours found</h3>
        <p>Try adjusting your filters or search terms.</p>
      </div>
    ".

(** [renderTours()] *)
Definition renderTours (s : state) : state :=
  let tours := array (store s) (filteredTours s) in
  let count := numberToString (inject_Z (Z.of_nat (length tours))) in
  if (length tours =? 0)%nat then
    mkState (store s) (allTours s) (filteredTours s)
      (activityFilter_value s) (priceFilter_value s) (searchInput_value s)
      count noResults
  else
    (* [...filteredTours] *)
    let '(sorted, st1) := alloc tours (store s) in
    (* .sort(...), in place *)
    let st2 := <[sorted := Array_sort (array st1 sorted)]> st1 in
    mkState st2 (allTours s) (filteredTours s)
      (activityFilter_value s) (priceFilter_value s) (searchInput_value s)
      count (join [] (map createTourCard (array st2 sorted))).

(** The subset [applyFilters] computes from a working set and the values
    read from the three controls. *)
Definition filterTours (activity priceRange search : jsstring)
  (tours : list Tour.t) : result (list Tour.t) :=
  Array_filter (keepTour activity priceRange search) tours.

(** [applyFilters()]: an exception of the callback leaves the state as it
    was. *)
Definition applyFilters (s : state) : result state :=
  let activity := toLowerCase (activityFilter_value s) in
  let priceRange := priceFilter_value s in
  let search := trim (toLowerCase (searchInput_value s)) in
  kept ← filterTours activity priceRange search (array (store s) (allTours s));
  let '(r, st1) := alloc kept (store s) in
  mret (renderTours
          (mkState st1 (allTours s) r
             (activityFilter_value s) (priceFilter_value s)
             (searchInput_value s) (tourCount_textContent s)
             (toursContainer_innerHTML s))).

(** [loadTours()] when the fetch and the parse succeed with the array
    [data]. *)
Definition loadTours_fulfilled (data : list Tour.t) (s : state) : state :=
  let '(r1, st1) := alloc data (store s) in
  let '(r2, st2) := alloc (array st1 r1) st1 in
  renderTours
    (mkState st2 r1 r2
       (activityFilter_value s) (priceFilter_value s) (searchInput_value s)
       (tourCount_textContent s) (toursContainer_innerHTML s)).

(** [loadTours()] when the fetch or the parse fails. *)
Definition loadTours_rejected (s : state) : state :=
  mkState (store s) (allTours s) (filteredTours s)
    (activityFilter_value s) (priceFilter_value s) (searchInput_value s)
    (tourCount_textContent s)
    (html "<div class=`no-results`><h3>Unable to load tours</h3><p>Please refresh the page.</p></div>").

(** What a handler run by the event loop leaves behind: an uncaught
    exception is reported and the state stays. *)
Definition applyFilters_handler (s : state) : state :=
  match applyFilters s with
  | Ok s' => s'
  | TypeError => s
  end.
End Pipeline.

(** ** The debounced handler and the timers of the host *)

(** [debounce(func, wait)] closes over one variable, [timeout]; the host
    keeps a table of active timers and hands out increasing handles. Time is
    counted in milliseconds, and the host runs a timer when it is due. *)
Section Debounce.
Context {W A : Type}.
Variable func : A -> W -> W.
Variable wait : Z.

Record timer := mkTimer {
  handle : nat;
  due : Z;
  args : A
}.

Record loop := mkLoop {
  world : W;
  now : Z;
  timers : list timer;
  nextHandle : nat;
  (** the variable [timeout] of the closure *)
  timeout : option nat;
  (** the runs of [func] so far: when, and with which arguments *)
  executed : list (Z * A)
}.

(** [clearTimeout(h)]: no effect for [undefined] or a timer that is gone. *)
Definition clearTimeout (h : option nat) (ts : list timer) : list timer :=
  match h with
  | None => ts
  | Some i => filter (fun t => handle t <> i) ts
  end.

(** [executedFunction(...args)], the function [debounce] returns. *)
Definition executedFunction (a : A) (l : loop) : loop :=
  let ts := clearTimeout (timeout l) (timers l) in
  let h := nextHandle l in
  mkLoop (world l) (now l) (ts ++ [mkTimer h (now l + wait) a]) (S h)
    (Some h) (executed l).

(** [later()], the callback given to [setTimeout]. *)
Definition later (a : A) (l : loop) : loop :=
  mkLoop (func a (world l)) (now l) (clearTimeout (timeout l) (timers l))
    (nextHandle l) (timeout l) (executed l ++ [(now l, a)]).

(** The timer the host runs next: the earliest one, the older one first
    among equals. *)
Fixpoint earliest (ts : list timer) : option timer :=
  match ts with
  | [] => None
  | t :: ts' =>
      match earliest ts' with
      | Some t' => if (due t' <? due t)%Z then Some t' else Some t
      | None => Some t
      end
  end.

(** The host runs a timer: it leaves the table, then its callback runs. *)
Definition runTimer (t : timer) (l : loop) : loop :=
  later (args t)
    (mkLoop (world l) (Z.max (now l) (due t))
       (filter (fun t' => handle t' <> handle t) (timers l))
       (nextHandle l) (timeout l) (executed l)).

Fixpoint elapse_steps (fuel : nat) (until : Z) (l : loop) : loop :=
  match fuel with
  | O => l
  | S fuel' =>
      match earliest (timers l) with
      | Some t =>
          if (due t <=? until)%Z then elapse_steps fuel' until (runTimer t l)
          else l
      | None => l
      end
  end.

(** Time passes until [until]: every timer due by then runs, in order. No
    callback of this program starts a timer, so there are at most as many
    runs as timers. *)
Definition elapse (until : Z) (l : loop) : loop :=
  let l' := elapse_steps (length (timers l)) until l in
  mkLoop (world l') (Z.max (now l') until) (timers l') (nextHandle l')
    (timeout l') (executed l').

(** An event at time [at_]: the user's edit [edit] of the page, then the
    debounced listener with the event [a]. *)
Definition dispatch (at_ : Z) (edit : W -> W) (a : A) (l : loop) : loop :=
  let l' := elapse at_ l in
  executedFunction a
    (mkLoop (edit (world l')) (now l') (timers l') (nextHandle l')
       (timeout l') (executed l')).

Definition dispatchAll (events : list (Z * (W -> W) * A)) (l : loop) : loop :=
  foldl (fun l e => dispatch e.1.1 e.1.2 e.2 l) l events.

(** No timer is pending, or one is and [timeout] holds its handle. *)
Definition atMostOnePending (l : loop) : Prop :=
  timers l = [] \/
  exists t, timers l = [t] /\ timeout l = Some (handle t).

(** The page before any event. *)
Definition startLoop (w : W) : loop := mkLoop w 0 [] 1 None [].

(** The listener ran last at time [at_] with the event [a]: its timer is the
    one pending, due [wait] later. *)
Definition Armed (l : loop) (at_ : Z) (a : A) : Prop :=
  now l = at_ /\
  exists h, timers l = [mkTimer h (at_ + wait) a] /\ timeout l = Some h.

(** A burst: each event comes less than [wait] after the one before. *)
Fixpoint burst (previous : Z) (times : list Z) : Prop :=
  match times with
  | [] => True
  | t :: times' => (previous <= t < previous + wait)%Z /\ burst t times'
  end.
End Debounce.

Arguments timer A : clear implicits.
Arguments loop W A : clear implicits.

Section SearchInput.
Variable toLowerCase : jsstring -> jsstring.
Variable numberToString : Q -> jsstring.

(** [searchInput.addEventListener('input', debounce(applyFilters, 300))]:
    an input event at time [at_] that leaves [value] in the search box.
    [applyFilters] ignores the event it is called with. *)
Definition searchInput_input (at_ : Z) (value : jsstring)
  (l : loop state unit) : loop state unit :=
  dispatch (fun _ => applyFilters_handler toLowerCase numberToString) 300
    at_ (set_searchInput_value value) tt l.

Definition searchInput_inputs (events : list (Z * jsstring))
  (l : loop state unit) : loop state unit :=
  foldl (fun l e => searchInput_input e.1 e.2 l) l events.

(** Time passes on the page. *)
Definition page_elapse (until : Z) (l : loop state unit) : loop state unit :=
  elapse (fun _ => applyFilters_handler toLowerCase numberToString) until l.
End SearchInput.

(** ** Instances of the parameters for closed examples *)

(** The case mapping on ASCII strings. *)
Definition asciiLowerCase (s : jsstring) : jsstring :=
  map (fun c => if (65 <=? c)%N && (c <=? 90)%N then (c + 32)%N else c) s.

(** The decimal form of an integer; the examples print no other number. *)
Definition integerString (q : Q) : jsstring :=
  lit (NilZero.string_of_int (Z.to_int (Qnum q / Zpos (Qden q)))).

(** ** Notions of the specification *)

(** [q] occurs in [s]. *)
Definition Substring (q s : jsstring) : Prop :=
  exists before after, s = before ++ q ++ after.

(** The candidate text of the search matcher, in the words of the
    specification: name, company, description and all tags, an absent field
    being empty, joined by spaces. *)
Definition candidateText (tour : Tour.t) : jsstring :=
  join (lit " ")
    (default [] (Tour.name tour) :: default [] (Tour.company tour)
     :: default [] (Tour.description tour) :: default [] (Tour.tags tour)).

(** The description the specification claims for a long text: the first
    hundred code units with only the whitespace at the end trimmed, and the
    ellipsis. *)
Definition truncate_claimed (str : jsstring) : jsstring :=
  trimEnd (take 100 str) ++ lit "...".

(** The named buckets of the price filter. *)
Definition namedBuckets : list jsstring :=
  [lit "0-50"; lit "50-100"; lit "100-200"; lit "200+"].

(** A listing has a price for the code when the field is there and is not
    zero. *)
Definition hasPrice (tour : Tour.t) : bool :=
  match Tour.price tour with
  | Some p => negb (Qeq_bool p 0)
  | None => false
  end.

(** A label of the duration text at the head of [s], in the words of the
    specification: the word "Duration" in any letter case, with all the
    whitespace that follows it; [rest] is what comes after. *)
Definition LabelAt (s rest : jsstring) : Prop :=
  exists label ws,
    s = label ++ ws ++ rest /\
    asciiLowerCase label = lit "duration" /\
    forallb isWhiteSpace ws = true /\
    (forall c, head rest = Some c -> isWhiteSpace c = false).

(** [r] is [s] with every label removed, from left to right. *)
Inductive EveryLabelRemoved : jsstring -> jsstring -> Prop :=
  | removed_nil : EveryLabelRemoved [] []
  | removed_label (s rest r : jsstring) :
      LabelAt s rest -> EveryLabelRemoved rest r -> EveryLabelRemoved s r
  | removed_keep (c : N) (s r : jsstring) :
      (forall rest, ~ LabelAt (c :: s) rest) ->
      EveryLabelRemoved s r -> EveryLabelRemoved (c :: s) (c :: r).

(** Every line break becomes one space. *)
Definition breaksToSpaces (s : jsstring) : jsstring :=
  map (fun c => if (c =? 10)%N then 32%N else c) s.

(** The cleaned duration the specification claims: only a label at the very
    start is dropped, every run of line breaks becomes one space, and the
    ends are trimmed. *)
Definition stripLeadingLabel (s : jsstring) : jsstring :=
  match matchLetters (lit "duration") s with
  | Some rest => rest
  | None => s
  end.

Fixpoint collapseBreaks (s : jsstring) : jsstring :=
  match s with
  | [] => []
  | c :: s' =>
      if (c =? 10)%N then
        match s' with
        | c' :: _ =>
            if (c' =? 10)%N then collapseBreaks s'
            else 32%N :: collapseBreaks s'
        | [] => [32%N]
        end
      else c :: collapseBreaks s'
  end.

Definition cleanDuration_claimed (duration : jsstring) : jsstring :=
  trim (collapseBreaks (stripLeadingLabel duration)).

(** [q] occurs in [s] when letter case is ignored on both sides. *)
Definition CaseInsensitiveSubstring (toLowerCase : jsstring -> jsstring)
  (q s : jsstring) : Prop :=
  Substring (toLowerCase q) (toLowerCase s).

(** The three matchers of the pipeline, and what it means for a listing to
    pass one: its filter value is empty or the matcher answers true. *)
Inductive matcher : Type :=
  | ByCategory
  | ByPrice
  | BySearch.

Definition passes (toLowerCase : jsstring -> jsstring)
  (activity priceRange search : jsstring) (m : matcher) (tour : Tour.t) : bool :=
  match m with
  | ByCategory =>
      negb (truthy activity) ||
      match matchesActivity toLowerCase tour activity with
      | Ok matched => matched
      | TypeError => false
      end
  | ByPrice => negb (truthy priceRange) || matchesPrice tour priceRange
  | BySearch => negb (truthy search) || matchesSearch toLowerCase tour search
  end.

(** One matcher applied alone to a set of listings, and the matchers applied
    one after the other in a given order. *)
Definition filterBy (toLowerCase : jsstring -> jsstring)
  (activity priceRange search : jsstring) (m : matcher) (tours : list Tour.t)
  : result (list Tour.t) :=
  Array_filter
    (fun tour =>
       match m with
       | ByCategory =>
           if truthy activity then matchesActivity toLowerCase tour activity
           else Ok true
       | ByPrice => Ok (negb (truthy priceRange) || matchesPrice tour priceRange)
       | BySearch =>
           Ok (negb (truthy search) || matchesSearch toLowerCase tour search)
       end)
    tours.

Fixpoint filterInOrder (toLowerCase : jsstring -> jsstring)
  (activity priceRange search : jsstring) (order : list matcher)
  (tours : list Tour.t) : result (list Tour.t) :=
  match order with
  | [] => Ok tours
  | m :: order' =>
      kept ← filterBy toLowerCase activity priceRange search m tours;
      filterInOrder toLowerCase activity priceRange search order' kept
  end.

(** [q] stands at the start of [s]. *)
Definition Prefix (q s : jsstring) : Prop := exists rest, s = q ++ rest.

(** The markup delimiters of a text, in order: the code units that open and
    close tags and attribute values. Text that is encoded for the markup
    context contributes none. *)
Definition delimiters (s : jsstring) : jsstring :=
  filter (fun c => c ∈ [60; 62; 34]%N) s.

(** ** Sample data *)

(** The two listings of the end-to-end scenarios of the specification. *)
Definition sunsetAirboat : Tour.t :=
  Tour.mk None (Some (lit "Sunset Airboat Ride")) None None
    (Some [lit "airboat"; lit "sunset"]) (Some 75%Q) None None None None
    (Some 9%Q).

Definition gatorKayak : Tour.t :=
  Tour.mk None (Some (lit "Gator Spotting Kayak")) None None
    (Some [lit "kayak"; lit "wildlife"]) (Some 40%Q) None None None None
    (Some 7%Q).

(** The page after the two listings were loaded. *)
Definition loadedPage : state :=
  loadTours_fulfilled integerString [sunsetAirboat; gatorKayak] initialState.

(** The page after [gatorKayak] was loaded and the category control was set
    to "constructor" and the price control to "200+". *)
Definition inheritedCategoryState : state :=
  set_priceFilter_value (lit "200+")
    (set_activityFilter_value (lit "constructor")
       (loadTours_fulfilled integerString [gatorKayak] initialState)).

(** ** Notions for the further properties *)

(** The assignment [filteredTours = kept] of a new array. *)
Definition assign_filteredTours (kept : list Tour.t) (s : state) : state :=
  let '(r, st1) := alloc kept (store s) in
  mkState st1 (allTours s) r
    (activityFilter_value s) (priceFilter_value s) (searchInput_value s)
    (tourCount_textContent s) (toursContainer_innerHTML s).

(** What the page shows for a displayed set: the count and the markup. *)
Definition viewOf (numberToString : Q -> jsstring) (tours : list Tour.t)
  : jsstring * jsstring :=
  (numberToString (inject_Z (Z.of_nat (length tours))),
   match tours with
   | [] => noResults
   | _ => join [] (map (createTourCard numberToString) (Array_sort tours))
   end).

(** What the page shows in a state. *)
Definition shown (s : state) : jsstring * jsstring :=
  (tourCount_textContent s, toursContainer_innerHTML s).

(** Events far apart: each comes at least [wait] after the one before. *)
Fixpoint spaced (wait : Z) (previous : Z) (times : list Z) : Prop :=
  match times with
  | [] => True
  | t :: times' => (previous + wait <= t)%Z /\ spaced wait t times'
  end.

(** The events of the three controls wired by [setupFilters]: an input in
    the search box, a change of the category, a change of the price bucket,
    each with the value the control holds after it. *)
Inductive pageEvent : Type :=
  | InputSearch (value : jsstring)
  | ChangeActivity (value : jsstring)
  | ChangePrice (value : jsstring).

Section PageEvents.
Variable toLowerCase : jsstring -> jsstring.
Variable numberToString : Q -> jsstring.

(** [activityFilter.addEventListener('change', applyFilters)] and the same
    for [priceFilter]: the listener runs at once. [executed] keeps recording
    the runs started by the timer only. *)
Definition page_change (at_ : Z) (edit : state -> state)
  (l : loop state unit) : loop state unit :=
  let l' := page_elapse toLowerCase numberToString at_ l in
  mkLoop (applyFilters_handler toLowerCase numberToString (edit (world l')))
    (now l') (timers l') (nextHandle l') (timeout l') (executed l').

Definition page_event (at_ : Z) (e : pageEvent) (l : loop state unit)
  : loop state unit :=
  match e with
  | InputSearch value =>
      searchInput_input toLowerCase numberToString at_ value l
  | ChangeActivity value => page_change at_ (set_activityFilter_value value) l
  | ChangePrice value => page_change at_ (set_priceFilter_value value) l
  end.

Definition page_events (events : list (Z * pageEvent)) (l : loop state unit)
  : loop state unit :=
  foldl (fun l e => page_event e.1 e.2 l) l events.

(** The page shows what the controls ask for: the displayed set is the
    subset the pipeline computes from the working set and the values the
    three controls hold now, and the view is that of this subset. *)
Definition UpToDate (s : state) : Prop :=
  exists kept,
    filterTours toLowerCase (toLowerCase (activityFilter_value s))
      (priceFilter_value s) (trim (toLowerCase (searchInput_value s)))
      (array (store s) (allTours s)) = Ok kept /\
    array (store s) (filteredTours s) = kept /\
    shown s = viewOf numberToString kept.

(** No event sets the category to the name of an inherited property. *)
Definition safeCategories (events : list (Z * pageEvent)) : Prop :=
  Forall
    (fun e : Z * pageEvent =>
       match e.2 with
       | ChangeActivity value => toLowerCase value ∉ Object_prototype_keys
       | _ => True
       end)
    events.

(** What every event keeps: the globals refer to arrays, the category is
    not the name of an inherited property, at most one timer is pending and
    it is due within 300 ms. *)
Definition PageInvariant (l : loop state unit) : Prop :=
  wellFormed (world l) /\
  (toLowerCase (activityFilter_value (world l)) ∉ Object_prototype_keys) /\
  atMostOnePending l /\
  Forall (fun t => (due t <= now l + 300)%Z) (timers l).
End PageEvents.

(** * Properties *)

(** ** Searching in strings *)

Lemma startsWith_spec (prefix s : jsstring) :
  startsWith s prefix = true <-> exists rest, s = prefix ++ rest.
Proof.
  revert s. induction prefix as [|p prefix IH]; intros s; simpl.
  - split; [intros _; by exists s | done].
  - destruct s as [|c s]; simpl.
    + split; [done | intros [rest Hrest]; discriminate].
    + rewrite andb_true_iff, N.eqb_eq, IH. split.
      * intros [-> [rest ->]]. by exists rest.
      * intros [rest Hrest]. injection Hrest as -> ->. eauto.
Qed.

Lemma Substring_cons (q s : jsstring) (c : N) :
  Substring q s -> Substring q (c :: s).
Proof. intros (before & after & ->). by exists (c :: before), after. Qed.

Lemma Substring_app_r (q s front : jsstring) :
  Substring q s -> Substring q (front ++ s).
Proof.
  intros (before & after & ->). exists (front ++ before), after.
  by rewrite <- app_assoc.
Qed.

Lemma Substring_prefix (q rest : jsstring) : Substring q (q ++ rest).
Proof. by exists [], rest. Qed.

(** [includes] decides occurrence. *)
Lemma includes_spec (s q : jsstring) :
  includes s q = true <-> Substring q s.
Proof.
  split.
  - induction s as [|c s IH]; simpl; rewrite orb_true_iff.
    + intros [H|H]; [|done].
      apply startsWith_spec in H as [rest ->]. apply Substring_prefix.
    + intros [H|H].
      * apply startsWith_spec in H as [rest ->]. apply Substring_prefix.
      * by apply Substring_cons, IH.
  - intros (before & after & ->).
    induction before as [|c before IH]; simpl.
    + destruct (q ++ after) eqn:E; simpl; rewrite orb_true_iff; left;
        apply startsWith_spec; exists after; by rewrite E.
    + rewrite orb_true_iff. by right.
Qed.

Lemma includes_empty (s : jsstring) : includes s [] = true.
Proof. apply includes_spec. by exists [], s. Qed.

(** ** Trimming *)

Lemma trimStart_suffix (s : jsstring) :
  exists ws, s = ws ++ trimStart s /\ forallb isWhiteSpace ws = true.
Proof.
  induction s as [|c s (ws & Hs & Hws)]; simpl.
  - by exists [].
  - destruct (isWhiteSpace c) eqn:Hc.
    + exists (c :: ws). simpl. rewrite Hc, Hws. split; [by f_equal | done].
    + by exists [].
Qed.

Lemma trimStart_head (s : jsstring) (c : N) :
  head (trimStart s) = Some c -> isWhiteSpace c = false.
Proof.
  induction s as [|x s IH]; simpl; [done|].
  destruct (isWhiteSpace x) eqn:Hx; [done|].
  simpl. by intros [= <-].
Qed.

Lemma trimStart_fixed (s : jsstring) (c : N) :
  head s = Some c -> isWhiteSpace c = false -> trimStart s = s.
Proof. destruct s as [|x s]; simpl; [done|]. by intros [= ->] ->. Qed.

Lemma trimEnd_prefix (s : jsstring) :
  exists ws, s = trimEnd s ++ ws /\ forallb isWhiteSpace ws = true.
Proof.
  destruct (trimStart_suffix (rev s)) as (ws & Hs & Hws).
  exists (rev ws). split.
  - unfold trimEnd. rewrite <- rev_app_distr, <- Hs. by rewrite rev_involutive.
  - rewrite forallb_forall in *. intros x Hx. apply Hws. by apply in_rev.
Qed.

Lemma last_rev_head (s : jsstring) : last (rev s) = head s.
Proof. destruct s as [|x s]; [done|]. simpl. by rewrite last_snoc. Qed.

Lemma trimEnd_last (s : jsstring) (c : N) :
  last (trimEnd s) = Some c -> isWhiteSpace c = false.
Proof. unfold trimEnd. rewrite last_rev_head. apply trimStart_head. Qed.

Lemma trimEnd_fixed (s : jsstring) (c : N) :
  last s = Some c -> isWhiteSpace c = false -> trimEnd s = s.
Proof.
  intros Hlast Hc. unfold trimEnd.
  rewrite (trimStart_fixed (rev s) c); [apply rev_involutive| |done].
  by rewrite <- last_rev_head, rev_involutive.
Qed.

Lemma trimEnd_head (s : jsstring) (c : N) :
  head (trimEnd s) = Some c -> head s = Some c.
Proof.
  destruct (trimEnd_prefix s) as (ws & Hs & _).
  destruct (trimEnd s) as [|x t]; [done|].
  intros [= ->]. by rewrite Hs.
Qed.

(** Neither end of a trimmed string is whitespace. *)
Lemma trim_last (s : jsstring) (c : N) :
  last (trim s) = Some c -> isWhiteSpace c = false.
Proof. apply trimEnd_last. Qed.

Lemma trim_head (s : jsstring) (c : N) :
  head (trim s) = Some c -> isWhiteSpace c = false.
Proof. intros H. apply trimEnd_head in H. by apply trimStart_head in H. Qed.

Lemma trim_fixed (s : jsstring) (a z : N) :
  head s = Some a -> last s = Some z ->
  isWhiteSpace a = false -> isWhiteSpace z = false -> trim s = s.
Proof.
  intros Ha Hz Hwa Hwz. unfold trim.
  rewrite (trimStart_fixed s a) by done. by apply (trimEnd_fixed s z).
Qed.

(** ** The price matcher *)

(** A listing priced at zero and the bucket "0-50". *)
Lemma matchesPrice_zero_0_50 :
  matchesPrice (Tour.with_price 0 Tour.blank) (lit "0-50") = false.
Proof. reflexivity. Qed.

Lemma matchesPrice_no_price (tour : Tour.t) (range : jsstring) :
  hasPrice tour = false ->
  matchesPrice tour range = bool_decide (range = lit "").
Proof.
  unfold hasPrice, matchesPrice. destruct (Tour.price tour) as [p|]; [|done].
  by destruct (Qeq_bool p 0).
Qed.

(** C1 (amended): a listing whose price is present and equal to zero is
    treated as a listing without a price. The matcher accepts it for the
    empty bucket and rejects it for "0-50", "50-100", "100-200" and "200+",
    and on every bucket it answers as it does for a listing whose price is
    absent. *)
Theorem matchesPrice_zero_as_absent (tour : Tour.t) (p : Q) :
  Tour.price tour = Some p -> (p == 0)%Q ->
  matchesPrice tour (lit "") = true /\
  matchesPrice tour (lit "0-50") = false /\
  matchesPrice tour (lit "50-100") = false /\
  matchesPrice tour (lit "100-200") = false /\
  matchesPrice tour (lit "200+") = false /\
  forall (absent : Tour.t) (range : jsstring),
    Tour.price absent = None ->
    matchesPrice tour range = matchesPrice absent range.
Proof.
  intros Hprice Hzero.
  assert (Hno : hasPrice tour = false).
  { unfold hasPrice. rewrite Hprice.
    apply Qeq_bool_iff in Hzero. by rewrite Hzero. }
  repeat split; try (by rewrite matchesPrice_no_price).
  intros absent range Habsent.
  rewrite !matchesPrice_no_price; [done| |done].
  unfold hasPrice. by rewrite Habsent.
Qed.

Lemma matchesPrice_zero_as_absent_witness :
  matchesPrice (Tour.with_price 0 Tour.blank) (lit "") = true /\
  matchesPrice (Tour.with_price 0 Tour.blank) (lit "200+") = false.
Proof.
  destruct (matchesPrice_zero_as_absent (Tour.with_price 0 Tour.blank) 0)
    as (H0 & _ & _ & _ & H4 & _); [reflexivity | reflexivity |].
  exact (conj H0 H4).
Defined.

(** Upper bounds are inclusive: a price of fifty is in "0-50" and not in
    "50-100". *)
Lemma matchesPrice_fifty (tour : Tour.t) (p : Q) :
  Tour.price tour = Some p -> (p == 50)%Q ->
  matchesPrice tour (lit "0-50") = true /\
  matchesPrice tour (lit "50-100") = false.
Proof.
  intros Hprice Hp. unfold matchesPrice, Qlt_bool. rewrite Hprice. simpl.
  assert (Qeq_bool p 0 = false) as ->.
  { apply not_true_is_false. rewrite Qeq_bool_iff, Hp. by intros H. }
  assert (Qle_bool p 50 = true) as ->
    by (rewrite Qle_bool_iff, Hp; apply Qle_refl).
  done.
Qed.

(** A listing without a price and a bucket the code does not know. *)
Lemma matchesPrice_unknown_bucket_no_price :
  matchesPrice Tour.blank (lit "cheap") = false.
Proof. reflexivity. Qed.

(** C4 (amended): for a bucket identifier that is not empty and not one of
    "0-50", "50-100", "100-200", "200+", the price matcher accepts exactly
    the listings that have a price other than zero; a listing whose price is
    absent or zero is rejected. *)
Theorem matchesPrice_unrecognized_bucket (tour : Tour.t) (range : jsstring) :
  range <> lit "" -> range ∉ namedBuckets ->
  matchesPrice tour range = hasPrice tour.
Proof.
  intros Hne Hnot. unfold matchesPrice, hasPrice.
  rewrite (bool_decide_eq_false_2 _ Hne).
  destruct (Tour.price tour) as [p|]; [|done].
  destruct (Qeq_bool p 0); [done|]. simpl.
  repeat case_bool_decide; try done;
    exfalso; apply Hnot; subst range; unfold namedBuckets; set_solver.
Qed.

Lemma matchesPrice_unrecognized_bucket_witness :
  matchesPrice (Tour.with_price 75 Tour.blank) (lit "cheap") = true /\
  matchesPrice Tour.blank (lit "cheap") = false.
Proof.
  split.
  - apply (matchesPrice_unrecognized_bucket (Tour.with_price 75 Tour.blank));
      [discriminate | by apply (bool_decide_unpack _)].
  - apply (matchesPrice_unrecognized_bucket Tour.blank);
      [discriminate | by apply (bool_decide_unpack _)].
Defined.

(** ** The search matcher *)

Lemma Array_join_fields (sep : jsstring) (tour : Tour.t) :
  Array_join sep
    ([Tour.name tour; Tour.company tour; Tour.description tour]
     ++ map Some (default [] (Tour.tags tour)))
  = join sep
      (default [] (Tour.name tour) :: default [] (Tour.company tour)
       :: default [] (Tour.description tour) :: default [] (Tour.tags tour)).
Proof.
  unfold Array_join. rewrite map_app, map_map. simpl.
  by rewrite map_id.
Qed.

(** C3: for every listing, with or without name, company, description and
    tags, and every query (so also every lowercased, trimmed, non-empty
    one), the search matcher answers true exactly when the query occurs in
    the lowercased text made of name, company, description and all tags
    joined by spaces, an absent field being empty. *)
Theorem matchesSearch_iff_substring
  (toLowerCase : jsstring -> jsstring) (tour : Tour.t) (search : jsstring) :
  matchesSearch toLowerCase tour search = true
  <-> Substring search (toLowerCase (candidateText tour)).
Proof.
  unfold matchesSearch, candidateText.
  by rewrite includes_spec, Array_join_fields.
Qed.

(** ** Truncation *)

(** A description of 101 code units that starts with a space. *)
Lemma truncate_trims_leading_whitespace :
  length (lit " " ++ repeat 97%N 100) = 101 /\
  truncate (lit " " ++ repeat 97%N 100) 100 = repeat 97%N 99 ++ lit "..." /\
  truncate (lit " " ++ repeat 97%N 100) 100
    <> truncate_claimed (lit " " ++ repeat 97%N 100).
Proof. repeat split. by vm_compute. Qed.

(** C7 (amended): a description of at most 100 code units is rendered
    unchanged. A longer one is rendered as its first 100 code units with
    the whitespace at both ends trimmed, followed by the ellipsis "...": no
    whitespace stands right before the ellipsis nor at the start; when
    neither the first nor the hundredth code unit is whitespace (so for such
    a description of 101 code units) these are the 100 code units themselves
    and the ellipsis. *)
Theorem truncate_trims_both_ends (description : jsstring) :
  (length description <= 100 -> truncate description 100 = description) /\
  (100 < length description ->
     truncate description 100 = trim (take 100 description) ++ lit "..." /\
     (forall c, last (trim (take 100 description)) = Some c ->
                isWhiteSpace c = false) /\
     (forall c, head (trim (take 100 description)) = Some c ->
                isWhiteSpace c = false) /\
     (forall a z,
        description !! 0 = Some a -> description !! 99 = Some z ->
        isWhiteSpace a = false -> isWhiteSpace z = false ->
        truncate description 100 = take 100 description ++ lit "...")).
Proof.
  split.
  - intros Hlen. unfold truncate. destruct description as [|c d]; [done|].
    by apply Nat.leb_le in Hlen as ->.
  - intros Hlen.
    assert (Heq : truncate description 100
                  = trim (take 100 description) ++ lit "...").
    { unfold truncate, substring0.
      destruct description as [|c d]; [simpl in Hlen; lia|].
      by apply Nat.leb_gt in Hlen as ->. }
    split; [done|]. split; [apply trim_last|]. split; [apply trim_head|].
    intros a z Ha Hz Hwa Hwz. rewrite Heq. f_equal.
    apply (trim_fixed _ a z); try done.
    + rewrite head_lookup, lookup_take_lt; [done | lia].
    + rewrite last_lookup, length_take_le by lia. simpl.
      rewrite lookup_take_lt; [done | lia].
Qed.

Lemma truncate_trims_both_ends_witness :
  truncate (lit "short") 100 = lit "short" /\
  truncate (repeat 97%N 101) 100 = repeat 97%N 100 ++ lit "...".
Proof.
  split.
  - apply (proj1 (truncate_trims_both_ends (lit "short"))). vm_compute. lia.
  - destruct (proj2 (truncate_trims_both_ends (repeat 97%N 101)))
      as (_ & _ & _ & H); [vm_compute; lia|].
    apply (H 97%N 97%N); reflexivity.
Defined.

(** ** Cleaning the duration text *)

Lemma matchLetters_length (pattern s rest : jsstring) :
  matchLetters pattern s = Some rest ->
  length s = length pattern + length rest.
Proof.
  revert s. induction pattern as [|p pattern IH]; intros s; simpl.
  - by intros [= ->].
  - destruct s as [|c s]; [done|].
    destruct (unitMatchesIgnoreCase p c); [|done].
    intros H. apply IH in H. simpl. lia.
Qed.

Lemma trimStart_length (s : jsstring) : length (trimStart s) <= length s.
Proof.
  destruct (trimStart_suffix s) as (ws & Hs & _).
  rewrite Hs at 2. rewrite length_app. lia.
Qed.

Lemma matchDuration_shorter (s rest : jsstring) :
  matchDuration s = Some rest -> length rest < length s.
Proof.
  unfold matchDuration.
  destruct (matchLetters (lit "duration") s) as [r|] eqn:E; [|done].
  intros [= <-]. apply matchLetters_length in E.
  pose proof (trimStart_length r). rewrite E. simpl. lia.
Qed.

(** More fuel than code units is enough fuel. *)
Lemma removeDuration_steps_enough (n m : nat) (s : jsstring) :
  length s < n -> length s < m ->
  removeDuration_steps n s = removeDuration_steps m s.
Proof.
  revert m s. induction n as [|n IH]; intros m s Hn Hm; [lia|].
  destruct m as [|m]; [lia|]. simpl.
  destruct (matchDuration s) as [rest|] eqn:E.
  - apply matchDuration_shorter in E. apply IH; lia.
  - destruct s as [|c s]; [done|]. simpl in *. f_equal. apply IH; lia.
Qed.

(** The equation of the scan, free of fuel. *)
Lemma removeDuration_eq (s : jsstring) :
  removeDuration s =
  match matchDuration s with
  | Some rest => removeDuration rest
  | None =>
      match s with
      | [] => []
      | c :: s' => c :: removeDuration s'
      end
  end.
Proof.
  unfold removeDuration at 1. simpl.
  destruct (matchDuration s) as [rest|] eqn:E.
  - apply matchDuration_shorter in E.
    apply removeDuration_steps_enough; lia.
  - by destruct s as [|c s].
Qed.

Lemma unitMatchesIgnoreCase_lower (p c : N) :
  (97 <= p <= 122)%N ->
  unitMatchesIgnoreCase p c = true <-> asciiLowerCase [c] = [p].
Proof.
  intros Hp. unfold unitMatchesIgnoreCase, asciiLowerCase. simpl.
  rewrite orb_true_iff, !N.eqb_eq.
  destruct (65 <=? c)%N eqn:H1; destruct (c <=? 90)%N eqn:H2; simpl;
    (apply N.leb_le in H1 || apply N.leb_gt in H1);
    (apply N.leb_le in H2 || apply N.leb_gt in H2);
    split; try (intros [= ?]); try (intros [?|?]); try (f_equal; lia); lia.
Qed.

Lemma matchLetters_spec (pattern s rest : jsstring) :
  Forall (fun p => 97 <= p <= 122)%N pattern ->
  matchLetters pattern s = Some rest
  <-> exists label, s = label ++ rest /\ asciiLowerCase label = pattern.
Proof.
  intros Hpat. revert s.
  induction Hpat as [|p pattern Hp Hpat IH]; intros s; simpl.
  - split.
    + intros [= ->]. by exists [].
    + intros (label & -> & Hl). by destruct label.
  - destruct s as [|c s].
    + split; [done|]. intros (label & Hs & Hl). by destruct label.
    + destruct (unitMatchesIgnoreCase p c) eqn:Hc.
      * apply unitMatchesIgnoreCase_lower in Hc; [|done].
        rewrite IH. split.
        -- intros (label & -> & <-). exists (c :: label). split; [done|].
           unfold asciiLowerCase in *. simpl in *. by injection Hc as ->.
        -- intros (label & Hs & Hl). destruct label as [|x label]; [done|].
           injection Hs as <- ->. exists label. split; [done|].
           unfold asciiLowerCase in *. simpl in *. by injection Hl.
      * split; [done|]. intros (label & Hs & Hl).
        destruct label as [|x label]; [done|]. injection Hs as <- ->.
        assert (unitMatchesIgnoreCase p c = true); [|congruence].
        apply unitMatchesIgnoreCase_lower; [done|].
        unfold asciiLowerCase in *. simpl in *. by injection Hl as ->.
Qed.

Lemma trimStart_spec (s rest : jsstring) :
  trimStart s = rest
  <-> exists ws, s = ws ++ rest /\ forallb isWhiteSpace ws = true /\
                 (forall c, head rest = Some c -> isWhiteSpace c = false).
Proof.
  split.
  - intros <-. destruct (trimStart_suffix s) as (ws & Hs & Hws).
    exists ws. split; [done|]. split; [done|]. apply trimStart_head.
  - intros (ws & -> & Hws & Hrest).
    induction ws as [|w ws IH]; simpl in *.
    + destruct rest as [|c rest]; [done|].
      apply (trimStart_fixed _ c); [done|]. by apply Hrest.
    + apply andb_true_iff in Hws as [-> Hws]. by apply IH.
Qed.

Lemma duration_letters :
  Forall (fun p => 97 <= p <= 122)%N (lit "duration").
Proof. repeat constructor; vm_compute; by intros. Qed.

(** The match of the regular expression is a label. *)
Lemma matchDuration_spec (s rest : jsstring) :
  matchDuration s = Some rest <-> LabelAt s rest.
Proof.
  unfold matchDuration, LabelAt. split.
  - destruct (matchLetters (lit "duration") s) as [r|] eqn:E; [|done].
    intros [= Hr]. apply trimStart_spec in Hr as (ws & -> & Hws & Hrest).
    apply (matchLetters_spec _ _ _ duration_letters) in E as (label & -> & Hl).
    by exists label, ws.
  - intros (label & ws & -> & Hl & Hws & Hrest).
    assert (matchLetters (lit "duration") (label ++ ws ++ rest)
            = Some (ws ++ rest)) as ->.
    { apply (matchLetters_spec _ _ _ duration_letters). by exists label. }
    f_equal. apply trimStart_spec. by exists ws.
Qed.

Lemma removeDuration_removes (s : jsstring) :
  EveryLabelRemoved s (removeDuration s).
Proof.
  remember (length s) as n eqn:Hn. revert s Hn.
  induction n as [n IH] using lt_wf_ind. intros s ->.
  rewrite removeDuration_eq.
  destruct (matchDuration s) as [rest|] eqn:E.
  - apply (removed_label s rest).
    + by apply matchDuration_spec.
    + apply (IH (length rest)); [by apply matchDuration_shorter | done].
  - destruct s as [|c s]; [constructor|].
    apply removed_keep.
    + intros rest Hrest. apply matchDuration_spec in Hrest. congruence.
    + apply (IH (length s)); [simpl; lia | done].
Qed.

Lemma EveryLabelRemoved_functional (s r : jsstring) :
  EveryLabelRemoved s r -> r = removeDuration s.
Proof.
  induction 1 as [|s rest r Hlabel _ IH|c s r Hno _ IH].
  - reflexivity.
  - apply matchDuration_spec in Hlabel.
    by rewrite (removeDuration_eq s), Hlabel.
  - rewrite removeDuration_eq.
    destruct (matchDuration (c :: s)) as [rest|] eqn:E.
    + apply matchDuration_spec in E. by destruct (Hno rest).
    + by rewrite IH.
Qed.

Lemma replaceAllUnit_breaks (s : jsstring) :
  replaceAllUnit 10 (lit " ") s = breaksToSpaces s.
Proof.
  unfold replaceAllUnit, breaksToSpaces.
  induction s as [|c s IH]; simpl; [done|].
  rewrite IH. by destruct (c =? 10)%N.
Qed.

(** A label that is not at the start, and two line breaks in a row. *)
Lemma cleanDuration_not_as_claimed :
  cleanDuration (lit "2 hours Duration varies") = lit "2 hours varies" /\
  cleanDuration (lit "2 hours Duration varies")
    <> cleanDuration_claimed (lit "2 hours Duration varies") /\
  cleanDuration [97; 10; 10; 98]%N = [97; 32; 32; 98]%N /\
  cleanDuration [97; 10; 10; 98]%N <> cleanDuration_claimed [97; 10; 10; 98]%N.
Proof. repeat split; by vm_compute. Qed.

(** C8 (amended): the cleaned duration is the input with every occurrence of
    the word "Duration" (in any letter case) removed together with the
    whitespace that follows it, wherever the occurrence is, then every line
    break replaced by one space (a run of breaks gives as many spaces), then
    the whitespace at both ends trimmed. *)
Theorem cleanDuration_removes_every_label (duration : jsstring) :
  exists stripped,
    EveryLabelRemoved duration stripped /\
    (forall r, EveryLabelRemoved duration r -> r = stripped) /\
    cleanDuration duration = trim (breaksToSpaces stripped).
Proof.
  exists (removeDuration duration).
  split; [apply removeDuration_removes|].
  split; [apply EveryLabelRemoved_functional|].
  unfold cleanDuration. by rewrite replaceAllUnit_breaks.
Qed.

(** ** The activity matcher *)

(** The token "Gator" has no entry in the table and occurs in the name
    "Gator Spotting Kayak", and the matcher answers false. *)
Lemma matchesActivity_token_case :
  activityMap !! lit "Gator" = None /\
  Substring (lit "Gator") (default [] (Tour.name gatorKayak)) /\
  CaseInsensitiveSubstring asciiLowerCase (lit "Gator")
    (default [] (Tour.name gatorKayak)) /\
  matchesActivity asciiLowerCase gatorKayak (lit "Gator") = Ok false.
Proof.
  split; [reflexivity|]. split; [by apply includes_spec|].
  split; [by apply includes_spec|]. reflexivity.
Qed.

Lemma activityMap_get_unlisted (activity : jsstring) :
  activityMap !! activity = None -> activity ∉ Object_prototype_keys ->
  activityMap_get activity = Undefined.
Proof.
  intros Hnone Hown. unfold activityMap_get. rewrite Hnone.
  by rewrite bool_decide_eq_false_2.
Qed.

(** C6 (amended): for every listing and every category token that has no
    entry in the table and is not the name of a property every object
    inherits ("constructor", "__proto__", "toString", ...), the activity
    matcher returns, and it returns true exactly when the token, as it was
    passed, occurs in the lowercased tags joined by spaces or in the
    lowercased name. Letter case is folded on the side of the listing only;
    the filter pipeline passes the token in lower case. *)
Theorem matchesActivity_unlisted_token
  (toLowerCase : jsstring -> jsstring) (tour : Tour.t) (activity : jsstring) :
  activityMap !! activity = None -> activity ∉ Object_prototype_keys ->
  exists matched,
    matchesActivity toLowerCase tour activity = Ok matched /\
    (matched = true <->
       Substring activity
         (join (lit " ") (map toLowerCase (default [] (Tour.tags tour)))) \/
       Substring activity (toLowerCase (default [] (Tour.name tour)))).
Proof.
  intros Hnone Hown. unfold matchesActivity.
  rewrite (activityMap_get_unlisted _ Hnone Hown). simpl.
  eexists. split; [reflexivity|].
  by rewrite orb_false_r, orb_true_iff, !includes_spec.
Qed.

Lemma matchesActivity_unlisted_token_witness :
  exists matched,
    matchesActivity asciiLowerCase sunsetAirboat (lit "sunset") = Ok matched /\
    (matched = true <->
       Substring (lit "sunset")
         (join (lit " ")
            (map asciiLowerCase (default [] (Tour.tags sunsetAirboat)))) \/
       Substring (lit "sunset")
         (asciiLowerCase (default [] (Tour.name sunsetAirboat)))).
Proof.
  apply (matchesActivity_unlisted_token asciiLowerCase sunsetAirboat
           (lit "sunset")).
  - reflexivity.
  - by apply (bool_decide_unpack _).
Defined.

(** A token of the table is expanded to its keywords: scenario 1 of the
    specification. *)
Lemma matchesActivity_wildlife :
  matchesActivity asciiLowerCase gatorKayak (lit "wildlife") = Ok true /\
  matchesActivity asciiLowerCase sunsetAirboat (lit "wildlife") = Ok false.
Proof. split; reflexivity. Qed.

(** ** The filter pipeline *)

Lemma Array_filter_pure {A : Type} (p : A -> bool) (a : list A) :
  Array_filter (fun x => Ok (p x)) a = Ok (filter (fun x => p x) a).
Proof.
  induction a as [|x a IH]; simpl; [done|].
  rewrite IH. simpl. rewrite filter_cons. by destruct (p x).
Qed.

Lemma Array_filter_ext {A : Type} (f g : A -> result bool) (a : list A) :
  (forall x, f x = g x) -> Array_filter f a = Array_filter g a.
Proof. intros H. induction a as [|x a IH]; simpl; [done|]. by rewrite H, IH. Qed.

(** A category token that is not an inherited property name never throws. *)
Lemma matchesActivity_returns
  (toLowerCase : jsstring -> jsstring) (tour : Tour.t) (activity : jsstring) :
  activity ∉ Object_prototype_keys ->
  exists matched, matchesActivity toLowerCase tour activity = Ok matched.
Proof.
  intros Hown. unfold matchesActivity, activityMap_get.
  destruct (activityMap !! activity); simpl; [eauto|].
  rewrite bool_decide_eq_false_2 by done. simpl. eauto.
Qed.

Lemma keepTour_passes
  (toLowerCase : jsstring -> jsstring) (activity priceRange search : jsstring)
  (tour : Tour.t) :
  activity ∉ Object_prototype_keys ->
  keepTour toLowerCase activity priceRange search tour
  = Ok (passes toLowerCase activity priceRange search ByCategory tour
        && passes toLowerCase activity priceRange search ByPrice tour
        && passes toLowerCase activity priceRange search BySearch tour).
Proof.
  intros Hown. unfold keepTour, passes.
  destruct (matchesActivity_returns toLowerCase tour activity Hown)
    as [matched ->].
  destruct (truthy activity); simpl.
  - destruct matched; simpl; [|done].
    destruct (truthy priceRange && negb (matchesPrice tour priceRange)) eqn:E1.
    + apply andb_true_iff in E1 as [-> ->%negb_true_iff]. done.
    + assert (negb (truthy priceRange) || matchesPrice tour priceRange = true)
        as -> by (destruct (truthy priceRange), (matchesPrice tour priceRange);
                  done).
      simpl.
      by destruct (truthy search), (matchesSearch toLowerCase tour search).
  - destruct (truthy priceRange && negb (matchesPrice tour priceRange)) eqn:E1.
    + apply andb_true_iff in E1 as [-> ->%negb_true_iff]. done.
    + assert (negb (truthy priceRange) || matchesPrice tour priceRange = true)
        as -> by (destruct (truthy priceRange), (matchesPrice tour priceRange);
                  done).
      simpl.
      by destruct (truthy search), (matchesSearch toLowerCase tour search).
Qed.

(** The subset the pipeline computes: the listings that pass the three
    matchers, in the order of the working set. *)
Lemma filterTours_passes
  (toLowerCase : jsstring -> jsstring) (activity priceRange search : jsstring)
  (tours : list Tour.t) :
  activity ∉ Object_prototype_keys ->
  filterTours toLowerCase activity priceRange search tours
  = Ok (filter
          (fun tour =>
             passes toLowerCase activity priceRange search ByCategory tour
             && passes toLowerCase activity priceRange search ByPrice tour
             && passes toLowerCase activity priceRange search BySearch tour)
          tours).
Proof.
  intros Hown. unfold filterTours.
  rewrite <- Array_filter_pure. apply Array_filter_ext.
  intros tour. by apply keepTour_passes.
Qed.

Lemma filterBy_passes
  (toLowerCase : jsstring -> jsstring) (activity priceRange search : jsstring)
  (m : matcher) (tours : list Tour.t) :
  activity ∉ Object_prototype_keys ->
  filterBy toLowerCase activity priceRange search m tours
  = Ok (filter
          (fun tour => passes toLowerCase activity priceRange search m tour)
          tours).
Proof.
  intros Hown. unfold filterBy.
  rewrite <- Array_filter_pure. apply Array_filter_ext. intros tour.
  destruct m; simpl; try done.
  destruct (matchesActivity_returns toLowerCase tour activity Hown)
    as [matched ->].
  by destruct (truthy activity).
Qed.

Lemma filterInOrder_passes
  (toLowerCase : jsstring -> jsstring) (activity priceRange search : jsstring)
  (order : list matcher) (tours : list Tour.t) :
  activity ∉ Object_prototype_keys ->
  filterInOrder toLowerCase activity priceRange search order tours
  = Ok (filter
          (fun tour =>
             forallb
               (fun m => passes toLowerCase activity priceRange search m tour)
               order)
          tours).
Proof.
  intros Hown. revert tours.
  induction order as [|m order IH]; intros tours; simpl.
  - f_equal. induction tours as [|t tours IHt]; [done|].
    rewrite filter_cons. simpl. by f_equal.
  - rewrite filterBy_passes by done. simpl. rewrite IH.
    f_equal. rewrite list_filter_filter. apply list_filter_iff.
    intros tour. rewrite andb_True. tauto.
Qed.

Lemma forallb_Permutation {A : Type} (f : A -> bool) (l l' : list A) :
  l ≡ₚ l' -> forallb f l = forallb f l'.
Proof.
  induction 1 as [|x l l' _ IH|x y l|l l' l'' _ IH1 _ IH2]; simpl.
  - done.
  - by rewrite IH.
  - by destruct (f x), (f y).
  - congruence.
Qed.

(** For a category token that is not an inherited property name, the three
    matchers applied one after the other in any order keep the listings the
    pipeline keeps. *)
Lemma filterInOrder_any_order
  (toLowerCase : jsstring -> jsstring) (activity priceRange search : jsstring)
  (order : list matcher) (tours : list Tour.t) :
  activity ∉ Object_prototype_keys ->
  order ≡ₚ [ByCategory; ByPrice; BySearch] ->
  filterInOrder toLowerCase activity priceRange search order tours
  = filterTours toLowerCase activity priceRange search tours.
Proof.
  intros Hown Hperm.
  rewrite filterInOrder_passes, filterTours_passes by done.
  f_equal. apply list_filter_iff. intros tour.
  rewrite (forallb_Permutation _ _ _ Hperm). simpl.
  by rewrite andb_true_r, andb_assoc.
Qed.

(** For such a token the pipeline returns a subset of the working set, in
    the order of the working set, made of the listings that pass every
    matcher whose filter value is not empty. *)
Lemma filterTours_subset
  (toLowerCase : jsstring -> jsstring) (activity priceRange search : jsstring)
  (tours : list Tour.t) :
  activity ∉ Object_prototype_keys ->
  exists kept,
    filterTours toLowerCase activity priceRange search tours = Ok kept /\
    kept `sublist_of` tours /\
    forall tour,
      tour ∈ kept <->
      tour ∈ tours /\
      forall m, passes toLowerCase activity priceRange search m tour = true.
Proof.
  intros Hown. eexists. split; [by apply filterTours_passes|].
  split; [apply sublist_filter|].
  intros tour. rewrite list_elem_of_filter, !andb_True, !Is_true_true.
  split.
  - intros [[[H1 H2] H3] Hin]. split; [done|]. by intros [].
  - intros [Hin H]. split; [|done]. by rewrite !H.
Qed.

(** An empty filter value imposes no constraint: the pipeline does not call
    the matcher on it, and the matcher itself would answer true. *)
Lemma passes_empty
  (toLowerCase : jsstring -> jsstring) (m : matcher) (tour : Tour.t) :
  passes toLowerCase [] [] [] m tour = true.
Proof. by destruct m. Qed.

Lemma matchers_accept_empty
  (toLowerCase : jsstring -> jsstring) (tour : Tour.t) :
  matchesActivity toLowerCase tour [] = Ok true /\
  matchesPrice tour [] = true /\
  matchesSearch toLowerCase tour [] = true.
Proof.
  split; [|split].
  - unfold matchesActivity.
    assert (activityMap_get [] = Undefined) as -> by by vm_compute.
    cbn [mbind result_bind mret result_ret existsb].
    by rewrite includes_empty.
  - unfold matchesPrice. destruct (Tour.price tour) as [p|]; [|done].
    by destruct (Qeq_bool p 0).
  - apply includes_empty.
Qed.

(** C5: with the listing [gatorKayak] loaded, the category control set to
    "constructor" and the price control to "200+", the pipeline throws a
    [TypeError] and computes no subset; the three matchers applied in the
    order category, price, search throw as well, while in the order price,
    category, search they give the empty subset: the order matters. *)
Theorem applyFilters_inherited_category :
  applyFilters asciiLowerCase integerString inheritedCategoryState = TypeError /\
  filterInOrder asciiLowerCase (lit "constructor") (lit "200+") []
    [ByCategory; ByPrice; BySearch] [gatorKayak] = TypeError /\
  filterInOrder asciiLowerCase (lit "constructor") (lit "200+") []
    [ByPrice; ByCategory; BySearch] [gatorKayak] = Ok [].
Proof. repeat split; by vm_compute. Qed.

(** ** The card of a listing *)

Lemma Substring_here (q s : jsstring) : Prefix q s -> Substring q s.
Proof. intros [rest ->]. apply Substring_prefix. Qed.

Lemma Prefix_nil (s : jsstring) : Prefix [] s.
Proof. by exists s. Qed.

Lemma Prefix_cons (c : N) (q s : jsstring) :
  Prefix q s -> Prefix (c :: q) (c :: s).
Proof. intros [rest ->]. by exists rest. Qed.

Lemma Prefix_app (a q s : jsstring) : Prefix q s -> Prefix (a ++ q) (a ++ s).
Proof. intros [rest ->]. exists rest. by rewrite <- app_assoc. Qed.

(** Literals become lists of code units; the parts that depend on the
    listing stay as they are. *)
Ltac literals :=
  repeat match goal with
    | |- context [html ?s] =>
        let v := eval vm_compute in (html s) in change (html s) with v
    | |- context [lit ?s] =>
        let v := eval vm_compute in (lit s) in change (lit s) with v
    end;
  cbn [app].

Ltac prefix_here :=
  solve [repeat first [apply Prefix_nil | apply Prefix_cons | apply Prefix_app]].

(** Looks for the text at every position of the card. *)
Ltac find_substring :=
  first [ apply Substring_here; prefix_here
        | apply Substring_cons; find_substring
        | apply Substring_app_r; find_substring ].

Lemma escapeJs_units (s : jsstring) :
  escapeJs (Some s)
  = flat_map (fun c => if (c =? 39)%N || (c =? 34)%N then [92%N; c] else [c]) s.
Proof.
  unfold escapeJs, replaceAllUnit. simpl.
  induction s as [|c s IH]; simpl; [done|].
  rewrite flat_map_app, IH. f_equal.
  destruct (c =? 39)%N eqn:E1; simpl.
  - by apply N.eqb_eq in E1 as ->.
  - destruct (c =? 34)%N eqn:E2; simpl; [|done].
    by apply N.eqb_eq in E2 as ->.
Qed.

(** A name that is markup: the card holds it as an element with a handler,
    and the delimiters of the card are not those of the card of the same
    name without its angle brackets. *)
Lemma createTourCard_markup_in_name :
  Substring (html "<h3 class=`tour-name`><img src=x onerror=alert(1)></h3>")
    (createTourCard integerString
       (Tour.with_name (lit "<img src=x onerror=alert(1)>") Tour.blank)) /\
  delimiters
    (createTourCard integerString
       (Tour.with_name (lit "<img src=x onerror=alert(1)>") Tour.blank))
  <> delimiters
       (createTourCard integerString
          (Tour.with_name (lit "img src=x onerror=alert(1)") Tour.blank)).
Proof. split; [by apply includes_spec | by vm_compute]. Qed.

(** C2 (amended): the rendered card holds the text fields of the listing as
    they are, with no encoding for the markup context: the image URL and the
    name in the image element, the name in the heading, the company, the
    booking link in the link element and, when they are present and not
    empty, the first tag, the truncated description and the cleaned
    duration (an absent name, company, URL or link prints as the word
    "undefined"). The one transformation of a field is [escapeJs] on the
    name in the click handler: it puts a backslash before every single and
    every double quote and keeps every other code unit. *)
Theorem createTourCard_inserts_fields_verbatim
  (numberToString : Q -> jsstring) (tour : Tour.t) :
  Substring
    (html "<img src=`" ++ interpolate (Tour.image tour) ++ html "` alt=`"
     ++ interpolate (Tour.name tour) ++ html "` loading=`lazy`>")
    (createTourCard numberToString tour) /\
  Substring
    (html "<h3 class=`tour-name`>" ++ interpolate (Tour.name tour)
     ++ html "</h3>")
    (createTourCard numberToString tour) /\
  Substring
    (html "<p class=`tour-company`>" ++ interpolate (Tour.company tour)
     ++ html "</p>")
    (createTourCard numberToString tour) /\
  Substring
    (html "<a href=`" ++ interpolate (Tour.bookingLink tour) ++ html "`")
    (createTourCard numberToString tour) /\
  Substring
    (html "onclick=`trackBookingClick('" ++ escapeJs (Tour.name tour)
     ++ lit "', '")
    (createTourCard numberToString tour) /\
  (forall first rest,
     Tour.tags tour = Some (first :: rest) -> first <> [] ->
     Substring (html "<span class=`tour-tag`>" ++ first ++ html "</span>")
       (createTourCard numberToString tour)) /\
  (forall d,
     Tour.description tour = Some d -> d <> [] ->
     Substring
       (html "<p class=`tour-description`>" ++ truncate d 100 ++ html "</p>")
       (createTourCard numberToString tour)) /\
  (forall d,
     Tour.durationText tour = Some d -> d <> [] ->
     Substring
       (html "<span>" ++ [9201%N] ++ lit " " ++ cleanDuration d
        ++ html "</span>")
       (createTourCard numberToString tour)) /\
  (forall n,
     escapeJs (Some n)
     = flat_map
         (fun c => if (c =? 39)%N || (c =? 34)%N then [92%N; c] else [c]) n).
Proof.
  repeat split; try (unfold createTourCard; cbv zeta; literals; find_substring).
  - intros first rest Htags Hfirst. unfold createTourCard. cbv zeta.
    rewrite Htags. destruct first as [|c first]; [done|].
    cbn [truthy]. literals. find_substring.
  - intros d Hd Hne. unfold createTourCard. cbv zeta.
    rewrite Hd. destruct d as [|c d]; [done|].
    cbn [truthy]. literals. find_substring.
  - intros d Hd Hne. unfold createTourCard. cbv zeta.
    rewrite Hd. destruct d as [|c d]; [done|].
    cbn [truthy default from_option id]. rewrite <- !app_assoc.
    literals. find_substring.
  - apply escapeJs_units.
Qed.

Lemma createTourCard_inserts_fields_verbatim_witness :
  Substring (html "<span class=`tour-tag`>kayak</span>")
    (createTourCard integerString gatorKayak).
Proof.
  destruct (createTourCard_inserts_fields_verbatim integerString gatorKayak)
    as (_ & _ & _ & _ & _ & Htag & _).
  apply (Htag (lit "kayak") [lit "wildlife"]); [reflexivity | discriminate].
Defined.

(** ** Rendering and the two arrays *)

Lemma alloc_fresh (a : list Tour.t) (st : gmap nat (list Tour.t)) :
  st !! (alloc a st).1 = None /\ (alloc a st).2 = <[(alloc a st).1 := a]> st.
Proof.
  unfold alloc. simpl. split; [|done].
  apply not_elem_of_dom, is_fresh.
Qed.

(** What rendering shows depends on the displayed set alone: its length and
    the cards of a sorted copy. *)
Lemma renderTours_view (numberToString : Q -> jsstring) (s : state) :
  let tours := array (store s) (filteredTours s) in
  tourCount_textContent (renderTours numberToString s)
  = numberToString (inject_Z (Z.of_nat (length tours))) /\
  toursContainer_innerHTML (renderTours numberToString s)
  = match tours with
    | [] => noResults
    | _ => join [] (map (createTourCard numberToString) (Array_sort tours))
    end.
Proof.
  intros tours. unfold renderTours. fold tours.
  destruct tours as [|t tours'] eqn:E; [done|].
  simpl. split; [done|].
  unfold array. by rewrite !lookup_insert_eq.
Qed.

(** Rendering leaves every array of the store as it is. *)
Lemma renderTours_store (numberToString : Q -> jsstring) (s : state) (r : nat) :
  is_Some (store s !! r) ->
  store (renderTours numberToString s) !! r = store s !! r.
Proof.
  intros Hr. unfold renderTours.
  destruct (length (array (store s) (filteredTours s)) =? 0)%nat; [done|].
  destruct (alloc_fresh (array (store s) (filteredTours s)) (store s))
    as [Hfresh _].
  unfold alloc in *. simpl in *.
  assert (fresh (dom (store s)) <> r) as Hne.
  { intros <-. rewrite Hfresh in Hr. by destruct Hr. }
  by rewrite !lookup_insert_ne.
Qed.

Lemma renderTours_globals (numberToString : Q -> jsstring) (s : state) :
  allTours (renderTours numberToString s) = allTours s /\
  filteredTours (renderTours numberToString s) = filteredTours s /\
  activityFilter_value (renderTours numberToString s) = activityFilter_value s /\
  priceFilter_value (renderTours numberToString s) = priceFilter_value s /\
  searchInput_value (renderTours numberToString s) = searchInput_value s.
Proof.
  unfold renderTours.
  by destruct (length (array (store s) (filteredTours s)) =? 0)%nat.
Qed.

(** Rendering keeps the globals, their arrays and well-formedness. *)
Lemma renderTours_leaves_store (numberToString : Q -> jsstring) (s : state) :
  wellFormed s ->
  allTours (renderTours numberToString s) = allTours s /\
  filteredTours (renderTours numberToString s) = filteredTours s /\
  array (store (renderTours numberToString s))
    (allTours (renderTours numberToString s))
  = array (store s) (allTours s) /\
  array (store (renderTours numberToString s))
    (filteredTours (renderTours numberToString s))
  = array (store s) (filteredTours s) /\
  wellFormed (renderTours numberToString s).
Proof.
  intros [Hall Hfiltered].
  destruct (renderTours_globals numberToString s) as (Ha & Hf & _).
  pose proof (renderTours_store numberToString s _ Hall) as Hsa.
  pose proof (renderTours_store numberToString s _ Hfiltered) as Hsf.
  split; [done|]. split; [done|].
  split; [unfold array; by rewrite Ha, Hsa|].
  split; [unfold array; by rewrite Hf, Hsf|].
  split; [by rewrite Ha, Hsa | by rewrite Hf, Hsf].
Qed.

(** C10: for every state in which the two globals refer to arrays,
    [renderTours] leaves [allTours] and [filteredTours] bound to the same
    arrays, with the same listings in the same order: the sort by quality
    score acts on a copy, which only the produced view shows. Rendering
    again shows the same count and the same cards. *)
Theorem renderTours_leaves_arrays (numberToString : Q -> jsstring) (s : state) :
  wellFormed s ->
  let s' := renderTours numberToString s in
  allTours s' = allTours s /\
  filteredTours s' = filteredTours s /\
  array (store s') (allTours s') = array (store s) (allTours s) /\
  array (store s') (filteredTours s') = array (store s) (filteredTours s) /\
  wellFormed s' /\
  toursContainer_innerHTML s'
  = match array (store s) (filteredTours s) with
    | [] => noResults
    | tours => join [] (map (createTourCard numberToString) (Array_sort tours))
    end /\
  tourCount_textContent (renderTours numberToString s')
  = tourCount_textContent s' /\
  toursContainer_innerHTML (renderTours numberToString s')
  = toursContainer_innerHTML s'.
Proof.
  intros Hwf s'.
  destruct (renderTours_leaves_store numberToString s Hwf)
    as (Ha & Hf & Harr_a & Harr & Hwf').
  fold s' in Ha, Hf, Harr_a, Harr, Hwf'.
  split; [done|]. split; [done|]. split; [done|]. split; [done|].
  split; [done|].
  destruct (renderTours_view numberToString s) as [Hcount Hview].
  destruct (renderTours_view numberToString s') as [Hcount' Hview'].
  fold s' in Hcount, Hview.
  split; [rewrite Hview; by destruct (array (store s) (filteredTours s))|].
  split; [by rewrite Hcount', Hcount, Harr | by rewrite Hview', Hview, Harr].
Qed.

Lemma renderTours_leaves_arrays_witness :
  array
    (store
       (renderTours integerString
          (loadTours_fulfilled integerString [gatorKayak; sunsetAirboat]
             initialState)))
    (filteredTours
       (renderTours integerString
          (loadTours_fulfilled integerString [gatorKayak; sunsetAirboat]
             initialState)))
  = array
      (store
         (loadTours_fulfilled integerString [gatorKayak; sunsetAirboat]
            initialState))
      (filteredTours
         (loadTours_fulfilled integerString [gatorKayak; sunsetAirboat]
            initialState)).
Proof.
  destruct
    (renderTours_leaves_arrays integerString
       (loadTours_fulfilled integerString [gatorKayak; sunsetAirboat]
          initialState))
    as (_ & _ & _ & H & _); [|exact H].
  split; eexists; vm_compute; reflexivity.
Defined.

(** The displayed set keeps the order of the working set while the view
    shows the listing of the higher score first. *)
Lemma renderTours_sorts_a_copy :
  let s := loadTours_fulfilled integerString [gatorKayak; sunsetAirboat]
             initialState in
  array (store s) (filteredTours s) = [gatorKayak; sunsetAirboat] /\
  toursContainer_innerHTML s
  = createTourCard integerString sunsetAirboat
    ++ createTourCard integerString gatorKayak.
Proof. split; by vm_compute. Qed.

(** ** The debounced listener *)

Section DebounceFacts.
Context {W A : Type}.
Variable func : A -> W -> W.
Variable wait : Z.
Hypothesis wait_nonneg : (0 <= wait)%Z.

Lemma clearTimeout_nil (h : option nat) :
  clearTimeout h ([] : list (timer A)) = [].
Proof. by destruct h. Qed.

Lemma clearTimeout_single (t : timer A) :
  clearTimeout (Some (handle t)) [t] = [].
Proof.
  unfold clearTimeout. rewrite filter_cons.
  by destruct (decide (handle t <> handle t)).
Qed.

Lemma clearTimeout_pending (l : loop W A) :
  atMostOnePending l -> clearTimeout (timeout l) (timers l) = [].
Proof.
  intros [->|(t & -> & ->)];
    [apply clearTimeout_nil | apply clearTimeout_single].
Qed.

Lemma Armed_atMostOnePending (l : loop W A) (at_ : Z) (a : A) :
  Armed wait l at_ a -> atMostOnePending l.
Proof. intros (_ & h & Ht & Hh). right. eexists. by rewrite Ht, Hh. Qed.

(** A call of the listener cancels the pending timer and starts one. *)
Lemma executedFunction_armed (a : A) (l : loop W A) :
  atMostOnePending l ->
  Armed wait (executedFunction wait a l) (now l) a /\
  world (executedFunction wait a l) = world l /\
  executed (executedFunction wait a l) = executed l.
Proof.
  intros Hinv. unfold executedFunction, Armed. simpl.
  rewrite (clearTimeout_pending l Hinv). simpl.
  split; [split; [done | by eexists] | done].
Qed.

Lemma elapse_quiet (until : Z) (l : loop W A) :
  timers l = [] ->
  elapse func until l
  = mkLoop (world l) (Z.max (now l) until) [] (nextHandle l) (timeout l)
      (executed l).
Proof. intros H. unfold elapse. rewrite H. simpl. by rewrite H. Qed.

(** Before it is due the pending timer stays. *)
Lemma elapse_early (until : Z) (l : loop W A) (t : timer A) :
  timers l = [t] -> (until < due t)%Z ->
  elapse func until l
  = mkLoop (world l) (Z.max (now l) until) [t] (nextHandle l) (timeout l)
      (executed l).
Proof.
  intros H Hdue. unfold elapse. rewrite H. simpl. rewrite H. simpl.
  apply Z.leb_gt in Hdue. rewrite Hdue. by rewrite H.
Qed.

(** Once it is due the pending timer runs, once, at its due time. *)
Lemma elapse_due (until : Z) (l : loop W A) (t : timer A) :
  timers l = [t] -> timeout l = Some (handle t) -> (due t <= until)%Z ->
  elapse func until l
  = mkLoop (func (args t) (world l))
      (Z.max (Z.max (now l) (due t)) until) [] (nextHandle l) (timeout l)
      (executed l ++ [(Z.max (now l) (due t), args t)]).
Proof.
  intros H Hh Hdue. unfold elapse. rewrite H. simpl. rewrite H. simpl.
  apply Z.leb_le in Hdue. rewrite Hdue.
  unfold runTimer, later. simpl. rewrite H, Hh.
  rewrite filter_cons. destruct (decide (handle t <> handle t)); [done|].
  by rewrite filter_nil, clearTimeout_nil.
Qed.

Lemma earliest_spec (ts : list (timer A)) (t : timer A) :
  earliest ts = Some t ->
  t ∈ ts /\ Forall (fun t' => due t <= due t')%Z ts.
Proof.
  revert t. induction ts as [|x ts IH]; intros t; simpl; [done|].
  destruct (earliest ts) as [t'|] eqn:E.
  - destruct (IH t' eq_refl) as [Hin Hmin].
    destruct (due t' <? due x)%Z eqn:Hlt; intros [= <-].
    + apply Z.ltb_lt in Hlt. split; [by right|].
      constructor; [lia | done].
    + apply Z.ltb_ge in Hlt. split; [by left|].
      constructor; [lia|]. eapply Forall_impl; [exact Hmin|].
      simpl. intros. lia.
  - intros [= <-]. destruct ts as [|y ts]; [|simpl in E].
    + split; [by left | by repeat constructor].
    + destruct (earliest ts) as [t'|]; [|done].
      by destruct (due t' <? due y)%Z.
Qed.

Lemma clearTimeout_length (h : option nat) (ts : list (timer A)) :
  length (clearTimeout h ts) <= length ts.
Proof. destruct h; simpl; [apply length_filter | done]. Qed.

(** Running a timer takes it off the table and starts none. *)
Lemma runTimer_length (t : timer A) (l : loop W A) :
  t ∈ timers l -> length (timers (runTimer func t l)) < length (timers l).
Proof.
  intros Hin. unfold runTimer, later. simpl.
  eapply Nat.le_lt_trans; [apply clearTimeout_length|].
  apply (length_filter_lt _ _ t); [done | tauto].
Qed.

Lemma elapse_steps_none_due (fuel : nat) (until : Z) (l : loop W A) :
  length (timers l) <= fuel ->
  Forall (fun t => until < due t)%Z (timers (elapse_steps func fuel until l)).
Proof.
  revert l. induction fuel as [|fuel IH]; intros l Hfuel; simpl.
  - destruct (timers l); [done | simpl in Hfuel; lia].
  - destruct (earliest (timers l)) as [t|] eqn:E.
    + destruct (earliest_spec _ _ E) as [Hin Hmin].
      destruct (due t <=? until)%Z eqn:Hdue.
      * apply IH. pose proof (runTimer_length t l Hin). lia.
      * apply Z.leb_gt in Hdue. eapply Forall_impl; [exact Hmin|].
        simpl. intros. lia.
    + destruct (timers l) as [|x ts]; [done|]. simpl in E.
      destruct (earliest ts) as [t'|]; [|done].
      by destruct (due t' <? due x)%Z.
Qed.

(** The fuel of [elapse] is enough: no timer that is due stays pending. *)
Lemma elapse_none_due (until : Z) (l : loop W A) :
  Forall (fun t => until < due t)%Z (timers (elapse func until l)).
Proof. unfold elapse. simpl. by apply elapse_steps_none_due. Qed.

Lemma elapse_atMostOnePending (until : Z) (l : loop W A) :
  atMostOnePending l -> atMostOnePending (elapse func until l).
Proof.
  intros [H|(t & H & Hh)].
  - left. by rewrite (elapse_quiet _ _ H).
  - destruct (Z.le_gt_cases (due t) until) as [Hdue|Hdue].
    + left. by rewrite (elapse_due _ _ _ H Hh Hdue).
    + right. exists t. by rewrite (elapse_early _ _ _ H Hdue).
Qed.

Lemma dispatch_atMostOnePending (at_ : Z) (edit : W -> W) (a : A) (l : loop W A) :
  atMostOnePending l -> atMostOnePending (dispatch func wait at_ edit a l).
Proof.
  intros Hinv. unfold dispatch.
  eapply Armed_atMostOnePending, executedFunction_armed.
  apply (elapse_atMostOnePending at_) in Hinv.
  destruct Hinv as [H|(t & H & Hh)]; [by left | right; by exists t].
Qed.

(** Under any sequence of events at most one timer is pending. *)
Lemma dispatchAll_atMostOnePending
  (events : list (Z * (W -> W) * A)) (l : loop W A) :
  atMostOnePending l -> atMostOnePending (dispatchAll func wait events l).
Proof.
  revert l. induction events as [|e events IH]; intros l Hinv; [done|].
  simpl. by apply IH, dispatch_atMostOnePending.
Qed.

Lemma atMostOnePending_length (l : loop W A) :
  atMostOnePending l -> length (timers l) <= 1.
Proof. intros [->|(t & -> & _)]; simpl; lia. Qed.

(** The first event of a burst arms the timer. *)
Lemma dispatch_quiet (at_ : Z) (edit : W -> W) (a : A) (l : loop W A) :
  timers l = [] -> (now l <= at_)%Z ->
  Armed wait (dispatch func wait at_ edit a l) at_ a /\
  world (dispatch func wait at_ edit a l) = edit (world l) /\
  executed (dispatch func wait at_ edit a l) = executed l.
Proof.
  intros H Hnow. unfold dispatch. rewrite (elapse_quiet _ _ H). simpl.
  unfold executedFunction, Armed. simpl. rewrite clearTimeout_nil. simpl.
  rewrite Z.max_r by done.
  split; [split; [done | by eexists] | done].
Qed.

(** An event that comes before the pending timer is due replaces the timer,
    and [func] does not run. *)
Lemma dispatch_armed (previous at_ : Z) (edit : W -> W) (a0 a : A) (l : loop W A) :
  Armed wait l previous a0 -> (previous <= at_ < previous + wait)%Z ->
  Armed wait (dispatch func wait at_ edit a l) at_ a /\
  world (dispatch func wait at_ edit a l) = edit (world l) /\
  executed (dispatch func wait at_ edit a l) = executed l.
Proof.
  intros (Hnow & h & Ht & Hh) Hat. unfold dispatch.
  rewrite (elapse_early at_ l _ Ht) by (simpl; lia). simpl.
  unfold executedFunction, Armed. simpl. rewrite Hh.
  change h with (handle (mkTimer h (previous + wait) a0)).
  rewrite clearTimeout_single. simpl.
  rewrite Hnow, Z.max_r by lia.
  split; [split; [done | by eexists] | done].
Qed.

(** After the quiet period the timer of the last event runs. *)
Lemma elapse_armed (at_ until : Z) (a : A) (l : loop W A) :
  Armed wait l at_ a -> (at_ + wait <= until)%Z ->
  world (elapse func until l) = func a (world l) /\
  executed (elapse func until l) = executed l ++ [((at_ + wait)%Z, a)] /\
  timers (elapse func until l) = [].
Proof.
  intros (Hnow & h & Ht & Hh) Huntil.
  rewrite (elapse_due until l _ Ht) by done. simpl.
  rewrite Hnow, Z.max_r by lia. done.
Qed.

Lemma last_cons_default {B : Type} (x d : B) (l : list B) :
  List.last (x :: l) d = List.last l x.
Proof.
  revert x d. induction l as [|y l IH]; intros x d; [done|].
  change (List.last (x :: y :: l) d) with (List.last (y :: l) d).
  by rewrite !IH.
Qed.

(** A burst leaves the timer of its last event pending; [func] has not run,
    and the edits of all events were made. *)
Lemma dispatchAll_burst
  (events : list (Z * (W -> W) * A)) (previous : Z) (a0 : A) (l : loop W A) :
  Armed wait l previous a0 ->
  burst wait previous (map (fun e => e.1.1) events) ->
  Armed wait (dispatchAll func wait events l)
    (List.last (map (fun e => e.1.1) events) previous)
    (List.last (map (fun e => e.2) events) a0) /\
  world (dispatchAll func wait events l)
  = foldl (fun w e => e.1.2 w) (world l) events /\
  executed (dispatchAll func wait events l) = executed l.
Proof.
  revert previous a0 l.
  induction events as [|[[t edit] a] events IH]; intros previous a0 l Harmed Hburst.
  - done.
  - destruct Hburst as [Ht Hburst]. simpl in Ht.
    destruct (dispatch_armed previous t edit a0 a l Harmed Ht)
      as (Harmed' & Hworld & Hexec).
    destruct (IH t a _ Harmed' Hburst) as (H1 & H2 & H3).
    cbn [dispatchAll foldl map fst snd]. rewrite !last_cons_default.
    split; [exact H1|]. split.
    + by rewrite <- Hworld.
    + by rewrite <- Hexec.
Qed.
End DebounceFacts.

Section SearchInputFacts.
Variable toLowerCase : jsstring -> jsstring.
Variable numberToString : Q -> jsstring.

Lemma searchInput_inputs_dispatchAll
  (events : list (Z * jsstring)) (l : loop state unit) :
  searchInput_inputs toLowerCase numberToString events l
  = dispatchAll (fun _ => applyFilters_handler toLowerCase numberToString) 300
      (map (fun e => (e.1, set_searchInput_value e.2, tt)) events) l.
Proof.
  revert l. induction events as [|e events IH]; intros l; [done|].
  simpl. by rewrite <- IH.
Qed.

(** Of the values typed during a burst the search box holds the last. *)
Lemma searchInput_value_last (events : list (Z * jsstring)) (v : jsstring)
  (s : state) :
  foldl (fun w (e : Z * (state -> state) * unit) => e.1.2 w)
    (set_searchInput_value v s)
    (map (fun e => (e.1, set_searchInput_value e.2, tt)) events)
  = set_searchInput_value (List.last (map snd events) v) s.
Proof.
  revert v. induction events as [|e events IH]; intros v; [done|].
  cbn [map foldl fst snd]. rewrite last_cons_default.
  change (set_searchInput_value e.2 (set_searchInput_value v s))
    with (set_searchInput_value e.2 s).
  apply IH.
Qed.

(** C9: under any sequence of input events on the search box, at any
    moment, at most one timer of the debounced listener is pending. For a
    burst of input events, each less than 300 ms after the one before, on a
    page with no timer pending, [applyFilters] runs exactly once: 300 ms
    after the last event, on the state in which the search box holds the
    value of the last event; no timer is pending afterwards. *)
Theorem searchInput_debounced
  (s : state) (first : Z * jsstring) (rest : list (Z * jsstring)) (until : Z) :
  (0 <= first.1)%Z ->
  burst 300 first.1 (map fst rest) ->
  (List.last (map fst rest) first.1 + 300 <= until)%Z ->
  (forall (events : list (Z * jsstring)) (moment : Z),
     length
       (timers
          (page_elapse toLowerCase numberToString moment
             (searchInput_inputs toLowerCase numberToString events
                (startLoop s)))) <= 1) /\
  let l :=
    page_elapse toLowerCase numberToString until
      (searchInput_inputs toLowerCase numberToString (first :: rest)
         (startLoop s)) in
  executed l = [((List.last (map fst rest) first.1 + 300)%Z, tt)] /\
  world l
  = applyFilters_handler toLowerCase numberToString
      (set_searchInput_value (List.last (map snd rest) first.2) s) /\
  timers l = [].
Proof.
  intros Hfirst Hburst Huntil. split.
  - intros events moment. apply atMostOnePending_length.
    apply elapse_atMostOnePending. rewrite searchInput_inputs_dispatchAll.
    apply dispatchAll_atMostOnePending. by left.
  - intros l. subst l. unfold page_elapse.
    rewrite searchInput_inputs_dispatchAll.
    destruct first as [t1 v1]. cbn [fst snd] in *.
    set (F := fun _ : unit => applyFilters_handler toLowerCase numberToString).
    set (later_events :=
           map (fun e : Z * jsstring => (e.1, set_searchInput_value e.2, tt))
             rest).
    change (dispatchAll F 300
              (map (fun e : Z * jsstring => (e.1, set_searchInput_value e.2, tt))
                 ((t1, v1) :: rest))
              (startLoop s))
      with (dispatchAll F 300 later_events
              (dispatch F 300 t1 (set_searchInput_value v1) tt (startLoop s))).
    destruct (dispatch_quiet F 300 t1 (set_searchInput_value v1) tt (startLoop s))
      as (Harmed & Hworld & Hexec); [done | done |].
    destruct (dispatchAll_burst F 300 later_events t1 tt _ Harmed)
      as (Harmed' & Hworld' & Hexec').
    { unfold later_events. by rewrite map_map. }
    unfold later_events in Harmed' at 2 3. rewrite !map_map in Harmed'.
    cbn [fst snd] in Harmed'.
    destruct (elapse_armed F 300 ltac:(lia) _ until _ _ Harmed' Huntil)
      as (Hw & He & Ht).
    split; [|split; [|done]].
    + rewrite He, Hexec', Hexec. simpl.
      by destruct (List.last (map (fun _ => ()) rest) ()).
    + rewrite Hw, Hworld', Hworld. unfold F. f_equal.
      apply searchInput_value_last.
Qed.
End SearchInputFacts.

Lemma searchInput_debounced_witness :
  executed
    (page_elapse asciiLowerCase integerString 550
       (searchInput_inputs asciiLowerCase integerString
          [(0%Z, lit "k"); (100%Z, lit "ka"); (250%Z, lit "kay")]
          (startLoop
             (loadTours_fulfilled integerString [sunsetAirboat; gatorKayak]
                initialState))))
  = [(550%Z, tt)].
Proof.
  destruct
    (searchInput_debounced asciiLowerCase integerString
       (loadTours_fulfilled integerString [sunsetAirboat; gatorKayak]
          initialState)
       (0%Z, lit "k") [(100%Z, lit "ka"); (250%Z, lit "kay")] 550)
    as (_ & H & _).
  - simpl. lia.
  - simpl. lia.
  - simpl. lia.
  - exact H.
Defined.

(** Scenario 6 of the specification: after the burst the page shows the one
    listing that matches the last value typed. *)
Lemma searchInput_burst_kay :
  let l :=
    page_elapse asciiLowerCase integerString 550
      (searchInput_inputs asciiLowerCase integerString
         [(0%Z, lit "k"); (100%Z, lit "ka"); (250%Z, lit "kay")]
         (startLoop
            (loadTours_fulfilled integerString [sunsetAirboat; gatorKayak]
               initialState))) in
  tourCount_textContent (world l) = lit "1" /\
  array (store (world l)) (filteredTours (world l)) = [gatorKayak].
Proof. split; by vm_compute. Qed.

(** ** The sort of the view *)

Lemma compareTours_le (a b : Tour.t) :
  Qle_bool (compareTours a b) 0 = true <-> (score b <= score a)%Q.
Proof. unfold compareTours. rewrite Qle_bool_iff. split; intros H; lra. Qed.

Lemma insertTour_Permutation (x : Tour.t) (l : list Tour.t) :
  insertTour x l ≡ₚ x :: l.
Proof.
  induction l as [|y l IH]; simpl; [done|].
  destruct (Qle_bool (compareTours x y) 0); [done|].
  by rewrite IH, Permutation_swap.
Qed.

(** The sorted copy holds the listings of the displayed set. *)
Lemma Array_sort_Permutation (l : list Tour.t) : Array_sort l ≡ₚ l.
Proof.
  induction l as [|x l IH]; simpl; [done|].
  by rewrite insertTour_Permutation, IH.
Qed.

Lemma insertTour_Sorted (x : Tour.t) (l : list Tour.t) :
  Sorted (fun a b => score b <= score a)%Q l ->
  Sorted (fun a b => score b <= score a)%Q (insertTour x l).
Proof.
  induction 1 as [|y l Hsorted IH Hhd]; simpl.
  - by repeat constructor.
  - destruct (Qle_bool (compareTours x y) 0) eqn:E.
    + apply compareTours_le in E. by repeat constructor.
    + constructor; [done|].
      assert (score x <= score y)%Q as Hxy.
      { apply Qlt_le_weak, Qnot_le_lt. intros H.
        apply compareTours_le in H. congruence. }
      destruct Hhd as [|z l Hz]; simpl.
      * by constructor.
      * destruct (Qle_bool (compareTours x z) 0); by constructor.
Qed.

(** It is ordered by quality score, the highest first. *)
Lemma Array_sort_descending (l : list Tour.t) :
  Sorted (fun a b => score b <= score a)%Q (Array_sort l).
Proof.
  induction l as [|x l IH]; simpl; [constructor|].
  by apply insertTour_Sorted.
Qed.

Lemma insertTour_stable (x : Tour.t) (l : list Tour.t) (q : Q) :
  filter (fun t => Qeq_bool (score t) q) (insertTour x l)
  = filter (fun t => Qeq_bool (score t) q) (x :: l).
Proof.
  induction l as [|y l IH]; simpl; [done|].
  destruct (Qle_bool (compareTours x y) 0) eqn:E; [done|].
  rewrite filter_cons, IH, !filter_cons.
  destruct (decide (Qeq_bool (score y) q)) as [Hy|Hy]; [|done].
  destruct (decide (Qeq_bool (score x) q)) as [Hx|Hx]; [|done].
  apply Is_true_true, Qeq_bool_iff in Hx, Hy.
  assert (Qle_bool (compareTours x y) 0 = true); [|congruence].
  apply compareTours_le. rewrite Hx, Hy. apply Qle_refl.
Qed.

(** The sort is stable: the listings of one quality score keep the order
    they have in the displayed set. *)
Lemma Array_sort_stable (l : list Tour.t) (q : Q) :
  filter (fun t => Qeq_bool (score t) q) (Array_sort l)
  = filter (fun t => Qeq_bool (score t) q) l.
Proof.
  induction l as [|x l IH]; simpl; [done|].
  by rewrite insertTour_stable, !filter_cons, IH.
Qed.

(** ** The pipeline on the state *)

(** For a category that is not an inherited property name, [applyFilters]
    returns: it binds [filteredTours] to a new array holding the filtered
    subset and leaves [allTours] and its array as they are. *)
Lemma applyFilters_state
  (toLowerCase : jsstring -> jsstring) (numberToString : Q -> jsstring)
  (s : state) :
  wellFormed s ->
  toLowerCase (activityFilter_value s) ∉ Object_prototype_keys ->
  exists s' kept,
    applyFilters toLowerCase numberToString s = Ok s' /\
    filterTours toLowerCase (toLowerCase (activityFilter_value s))
      (priceFilter_value s) (trim (toLowerCase (searchInput_value s)))
      (array (store s) (allTours s)) = Ok kept /\
    array (store s') (filteredTours s') = kept /\
    allTours s' = allTours s /\
    array (store s') (allTours s') = array (store s) (allTours s) /\
    wellFormed s'.
Proof.
  intros [Hall Hfiltered] Hown. unfold applyFilters.
  destruct (filterTours_subset toLowerCase
              (toLowerCase (activityFilter_value s)) (priceFilter_value s)
              (trim (toLowerCase (searchInput_value s)))
              (array (store s) (allTours s)) Hown)
    as (kept & -> & _).
  simpl. destruct (alloc_fresh kept (store s)) as [Hfresh Hstore].
  unfold alloc in *. simpl in *.
  set (r := fresh (dom (store s))) in *.
  set (s1 := mkState (<[r:=kept]> (store s)) (allTours s) r
               (activityFilter_value s) (priceFilter_value s)
               (searchInput_value s) (tourCount_textContent s)
               (toursContainer_innerHTML s)).
  assert (r <> allTours s) as Hne.
  { intros Heq. rewrite <- Heq, Hfresh in Hall. by destruct Hall. }
  assert (wellFormed s1) as Hwf.
  { split; simpl; [by rewrite lookup_insert_ne | by rewrite lookup_insert_eq]. }
  destruct (renderTours_leaves_store numberToString s1 Hwf)
    as (Ha & Hf & Harr_a & Harr_f & Hwf').
  exists (renderTours numberToString s1), kept.
  split; [done|]. split; [done|].
  split; [rewrite Harr_f; unfold array; simpl; by rewrite lookup_insert_eq|].
  split; [by rewrite Ha|].
  split; [|done].
  rewrite Harr_a. unfold array. simpl. by rewrite lookup_insert_ne.
Qed.

(** ** The end-to-end scenarios of the specification *)

(** Scenario 1: the category "wildlife" keeps the kayak tour only. *)
Lemma scenario_category_wildlife :
  exists s',
    applyFilters asciiLowerCase integerString
      (set_activityFilter_value (lit "wildlife") loadedPage) = Ok s' /\
    array (store s') (filteredTours s') = [gatorKayak].
Proof. eexists. split; by vm_compute. Qed.

(** Scenario 2: the bucket "50-100" keeps the airboat ride only. *)
Lemma scenario_price_50_100 :
  exists s',
    applyFilters asciiLowerCase integerString
      (set_priceFilter_value (lit "50-100") loadedPage) = Ok s' /\
    array (store s') (filteredTours s') = [sunsetAirboat].
Proof. eexists. split; by vm_compute. Qed.

(** Scenario 3: the search "kayak" keeps the kayak tour, and the count shown
    is 1. *)
Lemma scenario_search_kayak :
  exists s',
    applyFilters asciiLowerCase integerString
      (set_searchInput_value (lit "kayak") loadedPage) = Ok s' /\
    array (store s') (filteredTours s') = [gatorKayak] /\
    tourCount_textContent s' = lit "1".
Proof. eexists. repeat split; by vm_compute. Qed.

(** Scenario 4: when nothing matches, the block of no results stands in
    place of the cards and the count shown is 0. *)
Lemma scenario_no_results :
  exists s',
    applyFilters asciiLowerCase integerString
      (set_searchInput_value (lit "helicopter") loadedPage) = Ok s' /\
    array (store s') (filteredTours s') = [] /\
    tourCount_textContent s' = lit "0" /\
    toursContainer_innerHTML s' = noResults.
Proof. eexists. repeat split; by vm_compute. Qed.

(** * Further properties of the code *)

(** ** Price buckets *)

Lemma matchesPrice_priced (tour : Tour.t) (p : Q) :
  Tour.price tour = Some p -> Qeq_bool p 0 = false ->
  matchesPrice tour (lit "0-50") = Qle_bool p 50 /\
  matchesPrice tour (lit "50-100") = negb (Qle_bool p 50) && Qle_bool p 100 /\
  matchesPrice tour (lit "100-200") = negb (Qle_bool p 100) && Qle_bool p 200 /\
  matchesPrice tour (lit "200+") = negb (Qle_bool p 200).
Proof.
  intros Hprice Hzero. unfold matchesPrice, Qlt_bool. rewrite Hprice, Hzero.
  done.
Qed.

(** The four named buckets partition the priced listings: a listing whose
    price is present and not zero is accepted by exactly one of "0-50",
    "50-100", "100-200" and "200+". *)
Theorem matchesPrice_exactly_one_bucket (tour : Tour.t) (p : Q) :
  Tour.price tour = Some p -> ~ (p == 0)%Q ->
  exists bucket,
    bucket ∈ namedBuckets /\
    matchesPrice tour bucket = true /\
    forall other,
      other ∈ namedBuckets -> matchesPrice tour other = true -> other = bucket.
Proof.
  intros Hprice Hzero.
  assert (Qeq_bool p 0 = false) as Hz.
  { apply not_true_is_false. by rewrite Qeq_bool_iff. }
  destruct (matchesPrice_priced tour p Hprice Hz) as (H1 & H2 & H3 & H4).
  assert (Qle_bool p 50 = true -> Qle_bool p 100 = true) as H12.
  { rewrite !Qle_bool_iff. intros. lra. }
  assert (Qle_bool p 100 = true -> Qle_bool p 200 = true) as H23.
  { rewrite !Qle_bool_iff. intros. lra. }
  unfold namedBuckets. revert H1 H2 H3 H4 H12 H23.
  destruct (Qle_bool p 50), (Qle_bool p 100), (Qle_bool p 200); simpl;
    intros H1 H2 H3 H4 H12 H23;
    try (by specialize (H12 eq_refl)); try (by specialize (H23 eq_refl));
    [exists (lit "0-50") | exists (lit "50-100") | exists (lit "100-200")
     | exists (lit "200+")];
    (split; [set_solver|]); (split; [done|]);
    intros other Hin Hother;
    rewrite !elem_of_cons, elem_of_nil in Hin;
    destruct Hin as [->|[->|[->|[->|[]]]]]; try reflexivity; congruence.
Qed.

Lemma matchesPrice_exactly_one_bucket_witness :
  exists bucket,
    bucket ∈ namedBuckets /\
    matchesPrice sunsetAirboat bucket = true /\
    forall other,
      other ∈ namedBuckets -> matchesPrice sunsetAirboat other = true ->
      other = bucket.
Proof.
  apply (matchesPrice_exactly_one_bucket sunsetAirboat 75);
    [reflexivity | discriminate].
Defined.

(** ** Categories of the table *)

(** For a category token that has an entry in the table the matcher returns,
    and it returns true exactly when one of the keywords of the entry occurs
    in the lowercased tags joined by spaces or in the lowercased name; the
    token itself counts only when the entry lists it. *)
Theorem matchesActivity_listed_token
  (toLowerCase : jsstring -> jsstring) (tour : Tour.t) (activity : jsstring)
  (keywords : list jsstring) :
  activityMap !! activity = Some keywords ->
  exists matched,
    matchesActivity toLowerCase tour activity = Ok matched /\
    (matched = true <->
       exists kw,
         kw ∈ keywords /\
         (Substring kw
            (join (lit " ") (map toLowerCase (default [] (Tour.tags tour)))) \/
          Substring kw (toLowerCase (default [] (Tour.name tour))))).
Proof.
  intros Hentry. unfold matchesActivity, activityMap_get. rewrite Hentry.
  eexists. split; [reflexivity|].
  rewrite existsb_exists. split.
  - intros (kw & Hin & Hkw). exists kw. split; [by apply list_elem_of_In|].
    by rewrite orb_true_iff, !includes_spec in Hkw.
  - intros (kw & Hin & Hkw). exists kw. split; [by apply list_elem_of_In|].
    by rewrite orb_true_iff, !includes_spec.
Qed.

Lemma matchesActivity_listed_token_witness :
  exists matched,
    matchesActivity asciiLowerCase gatorKayak (lit "boat-tour") = Ok matched /\
    (matched = true <->
       exists kw,
         kw ∈ [lit "boat tour"; lit "boat ride"] /\
         (Substring kw
            (join (lit " ")
               (map asciiLowerCase (default [] (Tour.tags gatorKayak)))) \/
          Substring kw (asciiLowerCase (default [] (Tour.name gatorKayak))))).
Proof.
  apply (matchesActivity_listed_token asciiLowerCase gatorKayak
           (lit "boat-tour")).
  reflexivity.
Defined.

(** ** Lengths and shapes of the cleaned texts *)

Lemma trim_infix (s : jsstring) :
  exists before after, s = before ++ trim s ++ after.
Proof.
  destruct (trimStart_suffix s) as (ws & Hs & _).
  destruct (trimEnd_prefix (trimStart s)) as (ws' & Hs' & _).
  exists ws, ws'. unfold trim. by rewrite <- Hs', <- Hs.
Qed.

Lemma trim_length (s : jsstring) : length (trim s) <= length s.
Proof.
  destruct (trim_infix s) as (a & b & Hs). rewrite Hs at 2.
  rewrite !length_app. lia.
Qed.

Lemma trim_elem_of (s : jsstring) (c : N) : c ∈ trim s -> c ∈ s.
Proof.
  destruct (trim_infix s) as (a & b & Hs). intros Hc. rewrite Hs.
  rewrite !elem_of_app. auto.
Qed.

(** The truncated text is never longer than the limit and the three code
    units of the ellipsis, whatever the text and the limit. *)
Theorem truncate_length (str : jsstring) (limit : nat) :
  length (truncate str limit) <= limit + 3.
Proof.
  unfold truncate, substring0. destruct str as [|c str]; [simpl; lia|].
  destruct (length (c :: str) <=? limit) eqn:E.
  - apply Nat.leb_le in E. lia.
  - rewrite length_app. pose proof (trim_length (take limit (c :: str))).
    pose proof (firstn_le_length limit (c :: str)).
    change (length (lit "...")) with 3. lia.
Qed.

Lemma removeDuration_length (s : jsstring) :
  length (removeDuration s) <= length s.
Proof.
  remember (length s) as n eqn:Hn. revert s Hn.
  induction n as [n IH] using lt_wf_ind. intros s ->.
  rewrite removeDuration_eq.
  destruct (matchDuration s) as [rest|] eqn:E.
  - apply matchDuration_shorter in E.
    pose proof (IH (length rest) E rest eq_refl). lia.
  - destruct s as [|c s]; [done|]. simpl.
    pose proof (IH (length s) ltac:(simpl; lia) s eq_refl). lia.
Qed.

(** The cleaned duration holds no line feed, neither starts nor ends with
    whitespace, and is never longer than the text it comes from. *)
Theorem cleanDuration_shape (duration : jsstring) :
  (10%N ∉ cleanDuration duration) /\
  (forall c, head (cleanDuration duration) = Some c -> isWhiteSpace c = false) /\
  (forall c, last (cleanDuration duration) = Some c -> isWhiteSpace c = false) /\
  length (cleanDuration duration) <= length duration.
Proof.
  unfold cleanDuration. rewrite replaceAllUnit_breaks.
  split; [|split; [apply trim_head|split; [apply trim_last|]]].
  - intros Hin. apply trim_elem_of in Hin. unfold breaksToSpaces in Hin.
    apply list_elem_of_fmap in Hin as (c & Hc & _).
    destruct (c =? 10)%N eqn:E; [done|]. apply N.eqb_neq in E. congruence.
  - etrans; [apply trim_length|]. unfold breaksToSpaces.
    rewrite length_map. apply removeDuration_length.
Qed.

Lemma matchDuration_none (s : jsstring) :
  ~ Substring (lit "duration") (asciiLowerCase s) -> matchDuration s = None.
Proof.
  intros Hno. destruct (matchDuration s) as [rest|] eqn:E; [|done].
  apply matchDuration_spec in E as (label & ws & -> & Hlabel & _).
  destruct Hno. unfold asciiLowerCase in *. rewrite map_app, Hlabel.
  apply Substring_prefix.
Qed.

Lemma removeDuration_fixed (s : jsstring) :
  ~ Substring (lit "duration") (asciiLowerCase s) -> removeDuration s = s.
Proof.
  induction s as [|c s IH]; intros Hno; [done|].
  rewrite removeDuration_eq, (matchDuration_none _ Hno). f_equal.
  apply IH. intros Hsub. apply Hno. by apply Substring_cons.
Qed.

Lemma breaksToSpaces_fixed (s : jsstring) :
  10%N ∉ s -> breaksToSpaces s = s.
Proof.
  induction s as [|c s IH]; intros Hno; [done|].
  apply not_elem_of_cons in Hno as [Hc Hs]. simpl.
  rewrite (IH Hs). apply N.eqb_neq in Hc. rewrite N.eqb_sym in Hc.
  by rewrite Hc.
Qed.

(** A duration text in which the word "duration" occurs in no letter case
    and which holds no line feed is only trimmed. *)
Theorem cleanDuration_without_label (duration : jsstring) :
  ~ Substring (lit "duration") (asciiLowerCase duration) ->
  10%N ∉ duration ->
  cleanDuration duration = trim duration.
Proof.
  intros Hno Hbreak. unfold cleanDuration.
  by rewrite replaceAllUnit_breaks, (removeDuration_fixed _ Hno),
    (breaksToSpaces_fixed _ Hbreak).
Qed.

Lemma cleanDuration_without_label_witness :
  cleanDuration (lit " 2 hours ") = trim (lit " 2 hours ").
Proof.
  apply cleanDuration_without_label.
  - intros H. apply includes_spec in H. vm_compute in H. discriminate.
  - by apply (bool_decide_unpack _).
Defined.

(** ** Escaping for the click handler *)

(** In the escaped name every single and every double quote stands right
    after a backslash; the escaped name is longer than the name by the
    number of its quotes, and a name without quotes is left as it is. *)
Theorem escapeJs_every_quote_escaped (name : jsstring) :
  (forall i c,
     escapeJs (Some name) !! i = Some c -> c = 39%N \/ c = 34%N ->
     exists j, i = S j /\ escapeJs (Some name) !! j = Some 92%N) /\
  length (escapeJs (Some name))
  = length name + length (filter (fun c => c = 39%N \/ c = 34%N) name) /\
  (Forall (fun c => c <> 39%N /\ c <> 34%N) name ->
   escapeJs (Some name) = name).
Proof.
  rewrite escapeJs_units. split; [|split].
  - induction name as [|x name IH]; intros i c Hi Hc; [done|].
    cbn [flat_map] in *.
    destruct ((x =? 39)%N || (x =? 34)%N) eqn:Hx; simpl in *.
    + destruct i as [|[|i]]; simpl in *.
      * injection Hi as <-. destruct Hc; discriminate.
      * by exists 0.
      * destruct (IH i c Hi Hc) as (j & -> & Hj). by exists (S (S j)).
    + destruct i as [|i]; simpl in *.
      * injection Hi as <-. apply orb_false_iff in Hx as [H1 H2].
        apply N.eqb_neq in H1, H2. by destruct Hc.
      * destruct (IH i c Hi Hc) as (j & -> & Hj). by exists (S j).
  - induction name as [|x name IH]; [done|].
    simpl. rewrite length_app, IH, filter_cons.
    destruct ((x =? 39)%N || (x =? 34)%N) eqn:Hx.
    + apply orb_true_iff in Hx. rewrite !N.eqb_eq in Hx.
      rewrite decide_True by done. simpl. lia.
    + apply orb_false_iff in Hx. rewrite !N.eqb_neq in Hx.
      rewrite decide_False by tauto. simpl. lia.
  - induction 1 as [|x name [H1 H2] _ IH]; [done|].
    simpl. rewrite IH. apply N.eqb_neq in H1, H2. by rewrite H1, H2.
Qed.

(** ** The filter pipeline on ordinary categories *)

(** For every working set and every filter values whose category token is
    not the name of an inherited property, the pipeline returns a subset of
    the working set in the order of the working set: the listings that pass
    every matcher (a matcher whose filter value is empty is passed by all),
    and the three matchers applied one after the other in any order give
    the same subset. *)
Theorem filterTours_conjunction_in_any_order
  (toLowerCase : jsstring -> jsstring) (activity priceRange search : jsstring)
  (order : list matcher) (tours : list Tour.t) :
  activity ∉ Object_prototype_keys ->
  order ≡ₚ [ByCategory; ByPrice; BySearch] ->
  exists kept,
    filterTours toLowerCase activity priceRange search tours = Ok kept /\
    kept `sublist_of` tours /\
    (forall tour,
       tour ∈ kept <->
       tour ∈ tours /\
       forall m, passes toLowerCase activity priceRange search m tour = true) /\
    filterInOrder toLowerCase activity priceRange search order tours = Ok kept.
Proof.
  intros Hown Hperm.
  destruct (filterTours_subset toLowerCase activity priceRange search tours Hown)
    as (kept & Hkept & Hsub & Hin).
  exists kept. split; [done|]. split; [done|]. split; [done|].
  by rewrite filterInOrder_any_order.
Qed.

Lemma filterTours_conjunction_in_any_order_witness :
  exists kept,
    filterTours asciiLowerCase (lit "wildlife") (lit "0-50") []
      [sunsetAirboat; gatorKayak] = Ok kept /\
    kept `sublist_of` [sunsetAirboat; gatorKayak] /\
    (forall tour,
       tour ∈ kept <->
       tour ∈ [sunsetAirboat; gatorKayak] /\
       forall m,
         passes asciiLowerCase (lit "wildlife") (lit "0-50") [] m tour = true) /\
    filterInOrder asciiLowerCase (lit "wildlife") (lit "0-50") []
      [BySearch; ByCategory; ByPrice] [sunsetAirboat; gatorKayak] = Ok kept.
Proof.
  apply filterTours_conjunction_in_any_order.
  - by apply (bool_decide_unpack _).
  - etrans; [apply perm_swap|]. apply perm_skip, perm_swap.
Defined.

Lemma inherited_lookup (activity : jsstring) :
  activity ∈ Object_prototype_keys ->
  activityMap_get activity = Inherited /\ truthy activity = true.
Proof.
  unfold Object_prototype_keys. cbn [map]. intros Hin.
  repeat (apply elem_of_cons in Hin as [->|Hin]; [by vm_compute|]).
  by apply elem_of_nil in Hin.
Qed.

(** With the name of an inherited property as category the callback fails
    on the first listing. *)
Lemma filterTours_inherited
  (toLowerCase : jsstring -> jsstring) (activity priceRange search : jsstring)
  (tour : Tour.t) (tours : list Tour.t) :
  activity ∈ Object_prototype_keys ->
  filterTours toLowerCase activity priceRange search (tour :: tours)
  = TypeError.
Proof.
  intros Hin. destruct (inherited_lookup activity Hin) as [Hget Htruthy].
  unfold filterTours. simpl. unfold keepTour, matchesActivity.
  by rewrite Htruthy, Hget.
Qed.

(** The pipeline throws exactly when the category token is the name of an
    inherited property and the working set is not empty: the callback fails
    on the first listing, and it is not called on an empty working set. *)
Theorem filterTours_throws_iff
  (toLowerCase : jsstring -> jsstring) (activity priceRange search : jsstring)
  (tours : list Tour.t) :
  filterTours toLowerCase activity priceRange search tours = TypeError
  <-> activity ∈ Object_prototype_keys /\ tours <> [].
Proof.
  split.
  - intros Hthrow. destruct (decide (activity ∈ Object_prototype_keys)) as [Hin|Hout].
    + split; [done|]. by intros ->.
    + by rewrite filterTours_passes in Hthrow.
  - intros [Hin Hne]. destruct tours as [|tour tours]; [done|].
    by apply filterTours_inherited.
Qed.

Lemma Substring_trans (a b c : jsstring) :
  Substring a b -> Substring b c -> Substring a c.
Proof.
  intros (x & y & ->) (u & v & ->). exists (u ++ x), (y ++ v).
  by rewrite <- !app_assoc.
Qed.

Lemma Substring_nil_inv (q : jsstring) : Substring q [] -> q = [].
Proof.
  intros (x & y & H). symmetry in H.
  apply app_eq_nil in H as [_ H]. by apply app_eq_nil in H as [H _].
Qed.

Lemma filter_sublist_impl {A : Type} (P Q : A -> Prop)
  `{!forall x, Decision (P x)} `{!forall x, Decision (Q x)} (l : list A) :
  (forall x, P x -> Q x) -> filter P l `sublist_of` filter Q l.
Proof.
  intros Himpl. induction l as [|x l IH]; [done|].
  rewrite !filter_cons.
  destruct (decide (P x)) as [HP|HP].
  - rewrite decide_True by auto. by constructor.
  - destruct (decide (Q x)); [by constructor | done].
Qed.

(** A weaker filter keeps more: when the category and the price filter are
    kept or cleared and the search text is replaced by a part of it, every
    listing that was kept is still kept, in the same order. Typing on
    narrows the results, deleting widens them. *)
Theorem filterTours_narrows
  (toLowerCase : jsstring -> jsstring)
  (activity activity' priceRange priceRange' search search' : jsstring)
  (tours kept kept' : list Tour.t) :
  activity' = activity \/ activity' = [] ->
  priceRange' = priceRange \/ priceRange' = [] ->
  Substring search' search ->
  filterTours toLowerCase activity priceRange search tours = Ok kept ->
  filterTours toLowerCase activity' priceRange' search' tours = Ok kept' ->
  kept `sublist_of` kept'.
Proof.
  intros Ha Hp Hs Hkept Hkept'.
  destruct (decide (activity ∈ Object_prototype_keys)) as [Hin|Hout].
  { destruct tours as [|t tours].
    - injection Hkept as <-. injection Hkept' as <-. done.
    - assert (filterTours toLowerCase activity priceRange search (t :: tours)
              = TypeError) by (by apply filterTours_inherited).
      congruence. }
  assert (activity' ∉ Object_prototype_keys) as Hout'.
  { destruct Ha as [->| ->]; [done|]. by apply (bool_decide_unpack _). }
  rewrite filterTours_passes in Hkept, Hkept' by done.
  injection Hkept as <-. injection Hkept' as <-.
  apply filter_sublist_impl. intros tour.
  rewrite !andb_True. intros [[H1 H2] H3]. repeat split.
  - destruct Ha as [->| ->]; done.
  - destruct Hp as [->| ->]; done.
  - simpl in *. destruct (truthy search) eqn:E; simpl in *.
    + apply orb_True. right. apply Is_true_true, includes_spec.
      apply Is_true_true, includes_spec in H3.
      unfold matchesSearch in *. by eapply Substring_trans.
    + destruct search; [|done]. by rewrite (Substring_nil_inv _ Hs).
Qed.

Lemma filterTours_narrows_witness :
  [gatorKayak] `sublist_of` [sunsetAirboat; gatorKayak].
Proof.
  apply (filterTours_narrows asciiLowerCase
           (lit "wildlife") [] (lit "0-50") [] (lit "kayak") (lit "a")
           [sunsetAirboat; gatorKayak]).
  - by right.
  - by right.
  - by apply includes_spec.
  - reflexivity.
  - reflexivity.
Defined.

(** ** The pipeline and the state *)

Lemma applyFilters_outcome
  (toLowerCase : jsstring -> jsstring) (numberToString : Q -> jsstring)
  (s : state) :
  applyFilters toLowerCase numberToString s
  = match
      filterTours toLowerCase (toLowerCase (activityFilter_value s))
        (priceFilter_value s) (trim (toLowerCase (searchInput_value s)))
        (array (store s) (allTours s))
    with
    | Ok kept => Ok (renderTours numberToString (assign_filteredTours kept s))
    | TypeError => TypeError
    end.
Proof.
  unfold applyFilters, assign_filteredTours.
  by destruct (filterTours _ _ _ _ _).
Qed.

(** The state after the assignment and the rendering. *)
Lemma rendered_assigned
  (numberToString : Q -> jsstring) (kept : list Tour.t) (s : state) :
  let s' := renderTours numberToString (assign_filteredTours kept s) in
  array (store s') (filteredTours s') = kept /\
  shown s' = viewOf numberToString kept /\
  activityFilter_value s' = activityFilter_value s /\
  priceFilter_value s' = priceFilter_value s /\
  searchInput_value s' = searchInput_value s /\
  allTours s' = allTours s /\
  is_Some (store s' !! filteredTours s') /\
  (forall r, is_Some (store s !! r) -> store s' !! r = store s !! r).
Proof.
  intros s'. set (mid := assign_filteredTours kept s) in *.
  destruct (alloc_fresh kept (store s)) as [Hfresh _].
  assert (Hmid : store mid !! filteredTours mid = Some kept).
  { unfold mid, assign_filteredTours, alloc. simpl. apply lookup_insert_eq. }
  destruct (renderTours_globals numberToString mid) as (Ha & Hf & Hc1 & Hc2 & Hc3).
  pose proof (renderTours_store numberToString mid (filteredTours mid)
                ltac:(by rewrite Hmid)) as Hstore.
  fold s' in Ha, Hf, Hc1, Hc2, Hc3, Hstore.
  assert (Harr : array (store s') (filteredTours s') = kept).
  { unfold array. by rewrite Hf, Hstore, Hmid. }
  split; [done|]. split.
  { destruct (renderTours_view numberToString mid) as [Hcount Hview].
    fold s' in Hcount, Hview. unfold shown, viewOf.
    assert (array (store mid) (filteredTours mid) = kept) as Hk
      by (unfold array; by rewrite Hmid).
    rewrite Hcount, Hview, Hk. by destruct kept. }
  split; [done|]. split; [done|]. split; [done|]. split; [done|].
  split; [rewrite Hf, Hstore, Hmid; eauto|].
  intros r Hr.
  assert (store mid !! r = store s !! r) as Hold.
  { unfold mid, assign_filteredTours, alloc in *. simpl in *.
    apply lookup_insert_ne. intros Heq. rewrite <- Heq, Hfresh in Hr.
    by destruct Hr. }
  unfold s'. rewrite renderTours_store; [done|]. by rewrite Hold.
Qed.

(** Before the listings are loaded, and whenever the working set is empty,
    [applyFilters] returns whatever the three controls hold, also for a
    category that names an inherited property: the displayed set is empty,
    the count shown is that of zero and the block of no results stands in
    place of the cards. *)
Theorem applyFilters_empty_working_set
  (toLowerCase : jsstring -> jsstring) (numberToString : Q -> jsstring)
  (s : state) :
  array (store s) (allTours s) = [] ->
  exists s',
    applyFilters toLowerCase numberToString s = Ok s' /\
    array (store s') (filteredTours s') = [] /\
    tourCount_textContent s' = numberToString 0%Q /\
    toursContainer_innerHTML s' = noResults.
Proof.
  intros Hempty. rewrite applyFilters_outcome, Hempty. simpl.
  eexists. split; [reflexivity|].
  destruct (rendered_assigned numberToString [] s) as (Harr & Hshown & _).
  split; [done|]. by injection Hshown as -> ->.
Qed.

Lemma applyFilters_empty_working_set_witness :
  exists s',
    applyFilters asciiLowerCase integerString
      (set_activityFilter_value (lit "constructor") initialState) = Ok s' /\
    array (store s') (filteredTours s') = [] /\
    tourCount_textContent s' = integerString 0%Q /\
    toursContainer_innerHTML s' = noResults.
Proof.
  apply applyFilters_empty_working_set. reflexivity.
Defined.

(** [applyFilters] computes the displayed set from the working set and the
    three controls alone: two states with the same working set and the same
    control values get the same displayed set and the same view, or both
    throw, whatever was displayed before. *)
Theorem applyFilters_forgets_displayed_set
  (toLowerCase : jsstring -> jsstring) (numberToString : Q -> jsstring)
  (s1 s2 : state) :
  array (store s1) (allTours s1) = array (store s2) (allTours s2) ->
  activityFilter_value s1 = activityFilter_value s2 ->
  priceFilter_value s1 = priceFilter_value s2 ->
  searchInput_value s1 = searchInput_value s2 ->
  match applyFilters toLowerCase numberToString s1,
        applyFilters toLowerCase numberToString s2 with
  | Ok s1', Ok s2' =>
      array (store s1') (filteredTours s1')
      = array (store s2') (filteredTours s2') /\
      shown s1' = shown s2'
  | TypeError, TypeError => True
  | _, _ => False
  end.
Proof.
  intros Hall Ha Hp Hs. rewrite !applyFilters_outcome, Hall, Ha, Hp, Hs.
  destruct (filterTours _ _ _ _ _) as [kept|]; [|done].
  destruct (rendered_assigned numberToString kept s1) as (H1 & V1 & _).
  destruct (rendered_assigned numberToString kept s2) as (H2 & V2 & _).
  split; congruence.
Qed.

Lemma applyFilters_forgets_displayed_set_witness :
  match applyFilters asciiLowerCase integerString
          (set_searchInput_value (lit "kayak") loadedPage),
        applyFilters asciiLowerCase integerString
          (set_searchInput_value (lit "kayak")
             (applyFilters_handler asciiLowerCase integerString
                (set_searchInput_value (lit "helicopter") loadedPage))) with
  | Ok s1', Ok s2' =>
      array (store s1') (filteredTours s1')
      = array (store s2') (filteredTours s2') /\
      shown s1' = shown s2'
  | TypeError, TypeError => True
  | _, _ => False
  end.
Proof.
  apply applyFilters_forgets_displayed_set; reflexivity.
Defined.



(** ** The order of the cards and the loading *)

(** When the displayed set is not empty, the markup is the concatenation of
    one card per displayed listing: the cards of the displayed set put in
    the order of descending quality score (a missing score counts as zero),
    listings of equal score keeping the order of the displayed set; the
    count shown is the number of displayed listings. *)
Theorem renderTours_shows_sorted_cards
  (numberToString : Q -> jsstring) (s : state) :
  array (store s) (filteredTours s) <> [] ->
  exists sorted,
    toursContainer_innerHTML (renderTours numberToString s)
    = join [] (map (createTourCard numberToString) sorted) /\
    sorted ≡ₚ array (store s) (filteredTours s) /\
    Sorted (fun a b => score b <= score a)%Q sorted /\
    (forall q,
       filter (fun t => Qeq_bool (score t) q) sorted
       = filter (fun t => Qeq_bool (score t) q)
           (array (store s) (filteredTours s))) /\
    tourCount_textContent (renderTours numberToString s)
    = numberToString
        (inject_Z (Z.of_nat (length (array (store s) (filteredTours s))))).
Proof.
  intros Hne. destruct (renderTours_view numberToString s) as [Hcount Hview].
  exists (Array_sort (array (store s) (filteredTours s))).
  split; [by destruct (array (store s) (filteredTours s))|].
  split; [apply Array_sort_Permutation|].
  split; [apply Array_sort_descending|].
  split; [intros q; apply Array_sort_stable | done].
Qed.

Lemma renderTours_shows_sorted_cards_witness :
  exists sorted,
    toursContainer_innerHTML
      (renderTours integerString
         (loadTours_fulfilled integerString [gatorKayak; sunsetAirboat]
            initialState))
    = join [] (map (createTourCard integerString) sorted) /\
    sorted ≡ₚ [gatorKayak; sunsetAirboat].
Proof.
  destruct (renderTours_shows_sorted_cards integerString
              (loadTours_fulfilled integerString [gatorKayak; sunsetAirboat]
                 initialState))
    as (sorted & Hview & Hperm & _); [by vm_compute|].
  exists sorted. split; [exact Hview | exact Hperm].
Defined.

(** When the fetch succeeds, [allTours] and [filteredTours] are bound to two
    different new arrays that both hold the loaded listings in the loaded
    order, all listings are displayed whatever the three controls hold (the
    controls are not read), and the arrays that existed before are left as
    they are. *)
Theorem loadTours_fulfilled_shows_all
  (numberToString : Q -> jsstring) (data : list Tour.t) (s : state) :
  array (store (loadTours_fulfilled numberToString data s))
    (allTours (loadTours_fulfilled numberToString data s)) = data /\
  array (store (loadTours_fulfilled numberToString data s))
    (filteredTours (loadTours_fulfilled numberToString data s)) = data /\
  allTours (loadTours_fulfilled numberToString data s)
  <> filteredTours (loadTours_fulfilled numberToString data s) /\
  wellFormed (loadTours_fulfilled numberToString data s) /\
  shown (loadTours_fulfilled numberToString data s) = viewOf numberToString data /\
  activityFilter_value (loadTours_fulfilled numberToString data s)
  = activityFilter_value s /\
  priceFilter_value (loadTours_fulfilled numberToString data s)
  = priceFilter_value s /\
  searchInput_value (loadTours_fulfilled numberToString data s)
  = searchInput_value s /\
  (forall r,
     is_Some (store s !! r) ->
     store (loadTours_fulfilled numberToString data s) !! r = store s !! r).
Proof.
  pose (r1 := fresh (dom (store s))).
  pose (s1 := mkState (<[r1 := data]> (store s)) r1 (filteredTours s)
                (activityFilter_value s) (priceFilter_value s)
                (searchInput_value s) (tourCount_textContent s)
                (toursContainer_innerHTML s)).
  assert (Hload : loadTours_fulfilled numberToString data s
                  = renderTours numberToString (assign_filteredTours data s1)).
  { unfold loadTours_fulfilled, assign_filteredTours, alloc, s1, r1, array.
    simpl. by rewrite lookup_insert_eq. }
  rewrite Hload.
  destruct (rendered_assigned numberToString data s1)
    as (Harr & Hshown & Hc1 & Hc2 & Hc3 & Ha & Hsome & Hold).
  assert (Hr1 : store s1 !! r1 = Some data) by apply lookup_insert_eq.
  assert (Hfresh : store s !! r1 = None) by apply not_elem_of_dom, is_fresh.
  set (s' := renderTours numberToString (assign_filteredTours data s1)) in *.
  assert (Hnew : store s' !! r1 = Some data).
  { rewrite Hold; [done | by rewrite Hr1]. }
  assert (Hall : allTours s' = r1) by done.
  split; [unfold array; by rewrite Hall, Hnew|]. split; [done|].
  split.
  { rewrite Hall. intros Heq.
    destruct (renderTours_globals numberToString (assign_filteredTours data s1))
      as (_ & Hf & _).
    fold s' in Hf. rewrite Hf in Heq.
    unfold assign_filteredTours, alloc in Heq. simpl in Heq.
    pose proof (is_fresh (dom (<[r1:=data]> (store s)))) as Hnot.
    rewrite <- Heq in Hnot. apply Hnot, elem_of_dom.
    rewrite lookup_insert_eq. eauto. }
  split; [split; [rewrite Hall, Hnew; eauto | done]|].
  split; [done|]. split; [done|]. split; [done|]. split; [done|].
  intros r Hr. rewrite Hold.
  - apply lookup_insert_ne. intros Heq. rewrite <- Heq, Hfresh in Hr.
    by destruct Hr.
  - simpl. rewrite lookup_insert_ne; [done|].
    intros Heq. rewrite <- Heq, Hfresh in Hr. by destruct Hr.
Qed.

(** ** Events that are far apart *)

Section SpacedEvents.
Context {W A : Type}.
Variable func : A -> W -> W.
Variable wait : Z.
Hypothesis wait_nonneg : (0 <= wait)%Z.

(** An event that comes when the pending timer is due finds it run. *)
Lemma dispatch_after_due
  (previous at_ : Z) (edit : W -> W) (a0 a : A) (l : loop W A) :
  Armed wait l previous a0 -> (previous + wait <= at_)%Z ->
  Armed wait (dispatch func wait at_ edit a l) at_ a /\
  world (dispatch func wait at_ edit a l) = edit (func a0 (world l)) /\
  executed (dispatch func wait at_ edit a l)
  = executed l ++ [((previous + wait)%Z, a0)].
Proof.
  intros (Hnow & h & Ht & Hh) Hat. unfold dispatch.
  rewrite (elapse_due func at_ l _ Ht Hh) by done. simpl.
  unfold executedFunction, Armed. simpl. rewrite clearTimeout_nil. simpl.
  rewrite Hnow, (Z.max_r previous) by lia. rewrite Z.max_r by lia.
  split; [split; [done | by eexists] | done].
Qed.

Lemma dispatchAll_spaced
  (events : list (Z * (W -> W) * A)) (previous until : Z) (a0 : A)
  (l : loop W A) :
  Armed wait l previous a0 ->
  spaced wait previous (map (fun e => e.1.1) events) ->
  (List.last (map (fun e => e.1.1) events) previous + wait <= until)%Z ->
  executed (elapse func until (dispatchAll func wait events l))
  = executed l
    ++ ((previous + wait)%Z, a0)
       :: map (fun e => ((e.1.1 + wait)%Z, e.2)) events /\
  world (elapse func until (dispatchAll func wait events l))
  = foldl (fun w e => func e.2 (e.1.2 w)) (func a0 (world l)) events /\
  timers (elapse func until (dispatchAll func wait events l)) = [].
Proof.
  revert previous a0 l.
  induction events as [|[[t edit] a] events IH];
    intros previous a0 l Harmed Hspaced Huntil.
  - simpl in *.
    destruct (elapse_armed func wait wait_nonneg previous until a0 l Harmed Huntil)
      as (H1 & H2 & H3).
    done.
  - destruct Hspaced as [Ht Hspaced]. cbn [map fst snd] in *.
    rewrite last_cons_default in Huntil.
    destruct (dispatch_after_due previous t edit a0 a l Harmed Ht)
      as (Harmed' & Hworld & Hexec).
    destruct (IH t a _ Harmed' Hspaced Huntil) as (H1 & H2 & H3).
    change (dispatchAll func wait ((t, edit, a) :: events) l)
      with (dispatchAll func wait events (dispatch func wait t edit a l)).
    cbn [foldl map fst snd].
    split; [|split; [|done]].
    + by rewrite H1, Hexec, <- app_assoc.
    + by rewrite H2, Hworld.
Qed.
End SpacedEvents.

(** Input events on the search box that are at least 300 ms apart are not
    merged: [applyFilters] runs once for each of them, 300 ms after it, on
    the state in which the search box holds its value. *)
Theorem searchInput_spaced_inputs
  (toLowerCase : jsstring -> jsstring) (numberToString : Q -> jsstring)
  (s : state) (first : Z * jsstring) (rest : list (Z * jsstring)) (until : Z) :
  (0 <= first.1)%Z ->
  spaced 300 first.1 (map fst rest) ->
  (List.last (map fst rest) first.1 + 300 <= until)%Z ->
  executed
    (page_elapse toLowerCase numberToString until
       (searchInput_inputs toLowerCase numberToString (first :: rest)
          (startLoop s)))
  = map (fun e : Z * jsstring => ((e.1 + 300)%Z, tt)) (first :: rest) /\
  world
    (page_elapse toLowerCase numberToString until
       (searchInput_inputs toLowerCase numberToString (first :: rest)
          (startLoop s)))
  = foldl
      (fun w (e : Z * jsstring) =>
         applyFilters_handler toLowerCase numberToString
           (set_searchInput_value e.2 w))
      s (first :: rest) /\
  timers
    (page_elapse toLowerCase numberToString until
       (searchInput_inputs toLowerCase numberToString (first :: rest)
          (startLoop s)))
  = [].
Proof.
  intros Hfirst Hspaced Huntil. unfold page_elapse.
  rewrite searchInput_inputs_dispatchAll.
  destruct first as [t1 v1]. cbn [fst snd] in *.
  set (F := fun _ : unit => applyFilters_handler toLowerCase numberToString).
  set (later_events :=
         map (fun e : Z * jsstring => (e.1, set_searchInput_value e.2, tt))
           rest).
  change (dispatchAll F 300
            (map (fun e : Z * jsstring => (e.1, set_searchInput_value e.2, tt))
               ((t1, v1) :: rest))
            (startLoop s))
    with (dispatchAll F 300 later_events
            (dispatch F 300 t1 (set_searchInput_value v1) tt (startLoop s))).
  assert (Hquiet : timers (startLoop s : loop state unit) = []) by done.
  assert (Hnow : (now (startLoop s : loop state unit) <= t1)%Z) by done.
  destruct (dispatch_quiet F 300 t1 (set_searchInput_value v1) tt (startLoop s)
              Hquiet Hnow)
    as (Harmed & Hworld & Hexec).
  assert (Hspaced' : spaced 300 t1 (map (fun e => e.1.1) later_events)).
  { unfold later_events. by rewrite map_map. }
  assert (Huntil' :
            (List.last (map (fun e => e.1.1) later_events) t1 + 300 <= until)%Z).
  { unfold later_events. by rewrite map_map. }
  assert (Hwait : (0 <= 300)%Z) by lia.
  destruct (dispatchAll_spaced F 300 Hwait later_events t1 until tt _ Harmed
              Hspaced' Huntil')
    as (He & Hw & Ht).
  split; [|split; [|done]].
  - rewrite He, Hexec. unfold later_events. by rewrite map_map.
  - rewrite Hw, Hworld. unfold later_events, F. simpl.
    generalize (applyFilters_handler toLowerCase numberToString
                  (set_searchInput_value v1 s)).
    clear. induction rest as [|e rest IH]; intros w; [done|]. apply IH.
Qed.

Lemma searchInput_spaced_inputs_witness :
  executed
    (page_elapse asciiLowerCase integerString 1000
       (searchInput_inputs asciiLowerCase integerString
          [(0%Z, lit "kay"); (300%Z, lit "kayak"); (700%Z, lit "air")]
          (startLoop loadedPage)))
  = [(300%Z, tt); (600%Z, tt); (1000%Z, tt)].
Proof.
  destruct (searchInput_spaced_inputs asciiLowerCase integerString loadedPage
              (0%Z, lit "kay") [(300%Z, lit "kayak"); (700%Z, lit "air")] 1000)
    as (H & _).
  - simpl. lia.
  - simpl. lia.
  - simpl. lia.
  - exact H.
Defined.

(** ** The three controls together *)

(** A run of [applyFilters] brings the page up to date, whatever it showed
    before, when the category is not the name of an inherited property. *)
Lemma applyFilters_handler_up_to_date
  (toLowerCase : jsstring -> jsstring) (numberToString : Q -> jsstring)
  (s : state) :
  wellFormed s ->
  toLowerCase (activityFilter_value s) ∉ Object_prototype_keys ->
  UpToDate toLowerCase numberToString
    (applyFilters_handler toLowerCase numberToString s) /\
  wellFormed (applyFilters_handler toLowerCase numberToString s) /\
  activityFilter_value (applyFilters_handler toLowerCase numberToString s)
  = activityFilter_value s.
Proof.
  intros [Hall Hfil] Hsafe. unfold applyFilters_handler.
  rewrite applyFilters_outcome.
  pose proof (filterTours_passes toLowerCase _ (priceFilter_value s)
                (trim (toLowerCase (searchInput_value s)))
                (array (store s) (allTours s)) Hsafe) as Hkept.
  rewrite Hkept.
  set (kept := filter _ _) in *.
  pose proof (rendered_assigned numberToString kept s) as H.
  cbv zeta in H.
  destruct H as (Harr & Hshown & Hc1 & Hc2 & Hc3 & Ha & Hf & Hold).
  set (s' := renderTours _ _) in *.
  split; [|split; [split|done]].
  - exists kept. rewrite Hc1, Hc2, Hc3.
    assert (array (store s') (allTours s') = array (store s) (allTours s))
      as ->.
    { unfold array. by rewrite Ha, (Hold _ Hall). }
    done.
  - by rewrite Ha, (Hold _ Hall).
  - done.
Qed.

Section PageEventFacts.
Variable toLowerCase : jsstring -> jsstring.
Variable numberToString : Q -> jsstring.

Lemma startLoop_PageInvariant (s : state) :
  wellFormed s ->
  toLowerCase (activityFilter_value s) ∉ Object_prototype_keys ->
  PageInvariant toLowerCase (startLoop s).
Proof.
  intros Hwf Hsafe. unfold PageInvariant. simpl.
  split; [done|]. split; [done|]. split; [by left | constructor].
Qed.

(** While time passes the page keeps its state, or the pending run takes
    place and brings it up to date. *)
Lemma page_elapse_cases (until : Z) (l : loop state unit) :
  PageInvariant toLowerCase l ->
  PageInvariant toLowerCase (page_elapse toLowerCase numberToString until l) /\
  (now l <= now (page_elapse toLowerCase numberToString until l))%Z /\
  ((timers (page_elapse toLowerCase numberToString until l) = timers l /\
    world (page_elapse toLowerCase numberToString until l) = world l) \/
   (timers (page_elapse toLowerCase numberToString until l) = [] /\
    UpToDate toLowerCase numberToString
      (world (page_elapse toLowerCase numberToString until l)))).
Proof.
  intros (Hwf & Hsafe & Hpend & Hdue). unfold page_elapse.
  destruct Hpend as [Hnil | (t & Ht & Hh)].
  - rewrite elapse_quiet by done. unfold PageInvariant. simpl.
    split; [|split; [lia|]].
    + split; [done|]. split; [done|]. split; [by left | constructor].
    + left. by rewrite Hnil.
  - destruct (Z_le_gt_dec (due t) until) as [Hle | Hgt].
    + rewrite (elapse_due _ until l t Ht Hh Hle). unfold PageInvariant. simpl.
      destruct (applyFilters_handler_up_to_date toLowerCase numberToString
                  (world l) Hwf Hsafe) as (Hup & Hwf' & Hact).
      split; [|split; [lia|]].
      * split; [done|]. split; [by rewrite Hact|].
        split; [by left | constructor].
      * by right.
    + rewrite (elapse_early _ until l t Ht) by lia.
      unfold PageInvariant. simpl.
      rewrite Ht in Hdue. apply Forall_cons in Hdue as [Hdue _].
      split; [|split; [lia|]].
      * split; [done|]. split; [done|]. split.
        -- right. by exists t.
        -- constructor; [lia | constructor].
      * left. by rewrite Ht.
Qed.

(** Every event keeps the invariant, and a change of the category or of the
    price leaves the page up to date. *)
Lemma page_event_invariant (at_ : Z) (e : pageEvent) (l : loop state unit) :
  PageInvariant toLowerCase l ->
  match e with
  | ChangeActivity value => toLowerCase value ∉ Object_prototype_keys
  | _ => True
  end ->
  PageInvariant toLowerCase (page_event toLowerCase numberToString at_ e l) /\
  (timers (page_event toLowerCase numberToString at_ e l) = [] ->
   UpToDate toLowerCase numberToString
     (world (page_event toLowerCase numberToString at_ e l))).
Proof.
  intros Hinv Hsafe.
  destruct (page_elapse_cases at_ l Hinv) as [(Hwf & Hs & Hp & Hd) _].
  destruct e as [value | value | value]; unfold page_event.
  - unfold searchInput_input, dispatch.
    fold (page_elapse toLowerCase numberToString at_ l).
    set (l' := page_elapse toLowerCase numberToString at_ l) in *.
    set (l1 := mkLoop (set_searchInput_value value (world l')) (now l')
                 (timers l') (nextHandle l') (timeout l') (executed l')).
    assert (Hp1 : atMostOnePending l1) by exact Hp.
    destruct (executedFunction_armed 300 tt l1 Hp1)
      as ((Hnow & h & Ht & Hh) & Hw & _).
    split.
    + unfold PageInvariant. rewrite Hw. split; [exact Hwf|].
      split; [exact Hs|]. split.
      * right. eexists. split; [exact Ht | by rewrite Hh].
      * rewrite Ht. constructor; [|constructor]. cbn [due]. rewrite Hnow. lia.
    + intros H. rewrite Ht in H. discriminate.
  - unfold page_change.
    set (l' := page_elapse toLowerCase numberToString at_ l) in *.
    destruct (applyFilters_handler_up_to_date toLowerCase numberToString
                (set_activityFilter_value value (world l')) Hwf Hsafe)
      as (Hup & Hwf' & Hact).
    split; [|intros _; exact Hup]. unfold PageInvariant.
    cbn [world now timers timeout].
    split; [exact Hwf'|]. split; [rewrite Hact; exact Hsafe|].
    split; [exact Hp | exact Hd].
  - unfold page_change.
    set (l' := page_elapse toLowerCase numberToString at_ l) in *.
    destruct (applyFilters_handler_up_to_date toLowerCase numberToString
                (set_priceFilter_value value (world l')) Hwf Hs)
      as (Hup & Hwf' & Hact).
    split; [|intros _; exact Hup]. unfold PageInvariant.
    cbn [world now timers timeout].
    split; [exact Hwf'|]. split; [rewrite Hact; exact Hs|].
    split; [exact Hp | exact Hd].
Qed.

Lemma page_events_invariant
  (events : list (Z * pageEvent)) (l : loop state unit) :
  PageInvariant toLowerCase l -> safeCategories toLowerCase events ->
  PageInvariant toLowerCase (page_events toLowerCase numberToString events l) /\
  (events <> [] ->
   timers (page_events toLowerCase numberToString events l) = [] ->
   UpToDate toLowerCase numberToString
     (world (page_events toLowerCase numberToString events l))).
Proof.
  intros Hinv. induction events as [|e events IH] using rev_ind; intros Hsafe.
  - by split.
  - apply Forall_app in Hsafe as [Hsafe He].
    apply Forall_cons in He as [He _].
    destruct (IH Hsafe) as [Hinv' _].
    unfold page_events. rewrite foldl_app. simpl.
    fold (page_events toLowerCase numberToString events l).
    destruct (page_event_invariant e.1 e.2 _ Hinv' He) as [H1 H2].
    split; [done|]. intros _. exact H2.
Qed.
End PageEventFacts.

(** From a page without pending timer, after any events of the three
    controls at any times (the category never set to the name of an
    inherited property): whenever no run of [applyFilters] is pending, the
    page shows the subset and the cards that the controls' current values
    select from the working set; and 300 ms after the last event no run is
    pending. *)
Theorem page_settles_up_to_date
  (toLowerCase : jsstring -> jsstring) (numberToString : Q -> jsstring)
  (s : state) (events : list (Z * pageEvent)) (until : Z) :
  wellFormed s ->
  toLowerCase (activityFilter_value s) ∉ Object_prototype_keys ->
  events <> [] ->
  safeCategories toLowerCase events ->
  (timers
     (page_elapse toLowerCase numberToString until
        (page_events toLowerCase numberToString events (startLoop s))) = [] ->
   UpToDate toLowerCase numberToString
     (world
        (page_elapse toLowerCase numberToString until
           (page_events toLowerCase numberToString events (startLoop s))))) /\
  ((now (page_events toLowerCase numberToString events (startLoop s)) + 300
    <= until)%Z ->
   timers
     (page_elapse toLowerCase numberToString until
        (page_events toLowerCase numberToString events (startLoop s))) = []).
Proof.
  intros Hwf Hsafe Hne Hev.
  destruct (page_events_invariant toLowerCase numberToString events
              (startLoop s)
              (startLoop_PageInvariant toLowerCase s Hwf Hsafe) Hev)
    as [Hinv Hquiet].
  set (l0 := page_events toLowerCase numberToString events (startLoop s)) in *.
  destruct (page_elapse_cases toLowerCase numberToString until l0 Hinv)
    as (_ & _ & Hcases).
  split.
  - intros Hnil. destruct Hcases as [[Ht Hw] | [_ Hup]]; [|done].
    rewrite Hw. apply Hquiet; [done|]. by rewrite <- Ht.
  - intros Huntil. destruct Hinv as (_ & _ & Hpend & Hdue).
    unfold page_elapse. destruct Hpend as [Hnil | (t & Ht & Hh)].
    + by rewrite elapse_quiet.
    + rewrite Ht in Hdue. apply Forall_cons in Hdue as [Hdue _].
      by rewrite (elapse_due _ until l0 t Ht Hh) by lia.
Qed.

Lemma page_settles_up_to_date_witness :
  array
    (store
       (world
          (page_elapse asciiLowerCase integerString 450
             (page_events asciiLowerCase integerString
                [(0%Z, InputSearch (lit "kay"));
                 (100%Z, ChangePrice (lit "0-50"));
                 (150%Z, InputSearch (lit "kayak"))]
                (startLoop loadedPage)))))
    (filteredTours
       (world
          (page_elapse asciiLowerCase integerString 450
             (page_events asciiLowerCase integerString
                [(0%Z, InputSearch (lit "kay"));
                 (100%Z, ChangePrice (lit "0-50"));
                 (150%Z, InputSearch (lit "kayak"))]
                (startLoop loadedPage)))))
  = [gatorKayak].
Proof.
  assert (Hwf : wellFormed loadedPage) by (split; vm_compute; by eexists).
  assert (Hsafe : asciiLowerCase (activityFilter_value loadedPage)
                  ∉ Object_prototype_keys).
  { by apply (bool_decide_unpack _). }
  assert (Hne : [(0%Z, InputSearch (lit "kay"));
                 (100%Z, ChangePrice (lit "0-50"));
                 (150%Z, InputSearch (lit "kayak"))] <> []) by discriminate.
  assert (Hev : safeCategories asciiLowerCase
                  [(0%Z, InputSearch (lit "kay"));
                   (100%Z, ChangePrice (lit "0-50"));
                   (150%Z, InputSearch (lit "kayak"))]).
  { repeat constructor. }
  destruct (page_settles_up_to_date asciiLowerCase integerString loadedPage
              _ 450 Hwf Hsafe Hne Hev) as [Hup Hquiet].
  destruct (Hup (Hquiet ltac:(by vm_compute))) as (kept & Hkept & Harr & _).
  rewrite Harr. vm_compute in Hkept. by injection Hkept as <-.
Defined.
